(** * OceanBase-backed cache: a shallow embedding of
      backend/infra/impl/cache/oceanbase and of the contract it implements.

    The relational store is modelled by its tables.  A table with a unique
    key is a finite map from that key to the remaining columns; the message
    log is a list of rows.  Every method of the Go client reads the wall
    clock through [time.Now()]; here the instant read is an explicit
    argument [now], so that a caller chooses the instants at which the
    successive calls happen.  Instants and durations are integers
    (nanoseconds); the rounding of a timestamp to the precision of the
    column that stores it is not modelled, and the clock of the store
    ([NOW()]) is the clock of the process. *)

From Stdlib Require Import ZArith Lia Strings.String Strings.Ascii Strings.Byte.
From Stdlib Require Import DecimalString DecimalPos.
From stdpp Require Import base decidable option list gmap strings fin_maps sorting relations.

Local Open Scope Z_scope.
Local Open Scope string_scope.

(** ** Go values *)

Definition Time := Z.
Definition Duration := Z.

(** [time.Now().Add(d)] *)
Definition Time_Add (t : Time) (d : Duration) : Time := t + d.

(** Two's complement wrap-around of an [int64] and of a [uint64]. *)
Definition wrap_int64 (z : Z) : Z := (z + 2 ^ 63) mod 2 ^ 64 - 2 ^ 63.
Definition wrap_uint64 (z : Z) : Z := z mod 2 ^ 64.

Definition is_int64 (z : Z) : Prop := - 2 ^ 63 <= z < 2 ^ 63.

(** Values of the empty interface [any], by dynamic type.  A [[]byte] is the
    list of its bytes: the nil slice and the empty slice are both [[]]. *)
Inductive any : Type :=
  | any_bytes (b : list byte)
  | any_string (s : string)
  | any_int (n : Z)
  | any_int64 (n : Z)
  | any_bool (b : bool)
  | any_nil
  | any_strings (l : list string).

Inductive gotype : Set :=
  | T_bytes | T_string | T_int | T_int64 | T_bool | T_nil | T_strings.


#[global] Instance gotype_eq_dec : EqDecision gotype.
Proof. solve_decision. Defined.

#[global] Instance byte_eq_decision : EqDecision byte := byte_eq_dec.

(** ** Errors *)

(** What [gorm] reports in [Result.Error]: its own sentinel when [First]
    finds no row, or whatever the driver reported. *)
Inductive gorm_error : Type :=
  | ErrRecordNotFound
  | DriverError (msg : string).

Definition gorm_error_Error (e : gorm_error) : string :=
  match e with
  | ErrRecordNotFound => "record not found"
  | DriverError msg => msg
  end.

Inductive strconv_error : Set := ErrSyntax | ErrRange.

(** Values of Go's [error] interface that reach a caller of the cache. *)
Inductive error : Type :=
  | ErrNotInit
  | ErrNotFound
  | GormError (e : gorm_error)
  | NumError (Func Num : string) (Err : strconv_error).

#[global] Instance gorm_error_eq_dec : EqDecision gorm_error.
Proof. solve_decision. Defined.
#[global] Instance strconv_error_eq_dec : EqDecision strconv_error.
Proof. solve_decision. Defined.
#[global] Instance error_eq_dec : EqDecision error.
Proof. solve_decision. Defined.

(** ** Tables *)

Module CacheKV.
(** Row of [cache_kvs].  [cache_key] is unique: it is the key of the
    finite map that holds the table. *)
Record t : Type := mk {
  CacheValue : list byte;
  ExpireTime : Time;
  CreatedAt : Time;
  UpdatedAt : Time;
}.
#[global] Instance eq_dec : EqDecision t.
Proof. solve_decision. Defined.
End CacheKV.

Module CacheMap.
(** Row of [cache_maps], unique on [(cache_key, cache_field)]. *)
Record t : Type := mk {
  CacheValue : string;
  CreatedAt : Time;
  UpdatedAt : Time;
}.
#[global] Instance eq_dec : EqDecision t.
Proof. solve_decision. Defined.
End CacheMap.

Module Message.
(** Row of [cache_messages]; [ID] is the auto-increment primary key. *)
Record t : Type := mk {
  ID : Z;
  Channel : string;
  Message : string;
  CreatedAt : Time;
  UpdatedAt : Time;
}.
End Message.

Module MessageSubscribe.
(** Row of [cache_message_subscribes], unique on [(channel, subscriber)]. *)
Record t : Type := mk {
  LastMessageId : Z;
  CreatedAt : Time;
  UpdatedAt : Time;
}.
End MessageSubscribe.

(** The handle [*gorm.DB] together with the tables behind it.
    [fault] is the error with which the driver currently fails every
    statement, if the connection is broken.  [clientFoundRows] is the
    driver option of that name: an UPDATE reports the rows it matched when
    it is set, and the rows it changed otherwise.  [LIKE subject pattern]
    is the store's pattern match under the collation of the column. *)
Record DB : Type := mkDB {
  cache_kvs : gmap string CacheKV.t;
  cache_maps : gmap (string * string) CacheMap.t;
  cache_messages : list Message.t;
  cache_message_subscribes : gmap (string * string) MessageSubscribe.t;
  next_message_id : Z;
  fault : option string;
  clientFoundRows : bool;
  LIKE : string -> string -> bool;
}.

Definition with_kvs (db : DB) (kvs : gmap string CacheKV.t) : DB :=
  mkDB kvs (cache_maps db) (cache_messages db) (cache_message_subscribes db)
       (next_message_id db) (fault db) (clientFoundRows db) (LIKE db).

Definition with_maps (db : DB) (maps : gmap (string * string) CacheMap.t) : DB :=
  mkDB (cache_kvs db) maps (cache_messages db) (cache_message_subscribes db)
       (next_message_id db) (fault db) (clientFoundRows db) (LIKE db).

Definition with_messages (db : DB) (msgs : list Message.t) (next : Z) : DB :=
  mkDB (cache_kvs db) (cache_maps db) msgs (cache_message_subscribes db)
       next (fault db) (clientFoundRows db) (LIKE db).

Definition with_subscribes (db : DB)
    (subs : gmap (string * string) MessageSubscribe.t) : DB :=
  mkDB (cache_kvs db) (cache_maps db) (cache_messages db) subs
       (next_message_id db) (fault db) (clientFoundRows db) (LIKE db).

(** A byte-wise [LIKE] with [%] for any run of characters and [_] for any
    one character, for stores whose collation compares bytes. *)
Fixpoint like_from (fuel : nat) (subject pattern : list ascii) : bool :=
  match fuel with
  | O => false
  | S fuel' =>
      match pattern with
      | [] => match subject with [] => true | _ => false end
      | p :: pattern' =>
          if decide (p = "%"%char) then
            like_from fuel' subject pattern'
            || match subject with
               | [] => false
               | _ :: subject' => like_from fuel' subject' pattern
               end
          else
            match subject with
            | [] => false
            | c :: subject' =>
                (if decide (p = "_"%char) then true else bool_decide (p = c))
                && like_from fuel' subject' pattern'
            end
      end
  end.

Definition binary_LIKE (subject pattern : string) : bool :=
  let s := list_ascii_of_string subject in
  let p := list_ascii_of_string pattern in
  like_from (S (length s + length p)) s p.

Definition empty_DB : DB := mkDB ∅ ∅ [] ∅ 1 None false binary_LIKE.

(** ** Statements *)

Module gorm.
Record Result : Type := mkResult {
  Error : option gorm_error;
  RowsAffected : Z;
}.

(** A statement that writes: it fails as a whole, and changes nothing,
    when the connection is broken. *)
Definition Exec (stmt : DB -> Z * DB) (db : DB) : Result * DB :=
  match fault db with
  | Some msg => (mkResult (Some (DriverError msg)) 0, db)
  | None => let '(n, db') := stmt db in (mkResult None n, db')
  end.

(** [First]: the row selected, or [ErrRecordNotFound]. *)
Definition First {A} (query : DB -> option A) (db : DB) : Result * option A :=
  match fault db with
  | Some msg => (mkResult (Some (DriverError msg)) 0, None)
  | None =>
      match query db with
      | Some row => (mkResult None 1, Some row)
      | None => (mkResult (Some ErrRecordNotFound) 0, None)
      end
  end.

(** [Find]: the rows selected; no row is not an error. *)
Definition Find {A} (query : DB -> list A) (db : DB) : Result * list A :=
  match fault db with
  | Some msg => (mkResult (Some (DriverError msg)) 0, [])
  | None => let rows := query db in (mkResult None (Z.of_nat (length rows)), rows)
  end.

(** [Count]: the number of rows selected, 0 when the statement fails. *)
Definition Count (query : DB -> Z) (db : DB) : Result * Z :=
  match fault db with
  | Some msg => (mkResult (Some (DriverError msg)) 0, 0)
  | None => (mkResult None 0, query db)
  end.
End gorm.

(** [INSERT INTO cache_kvs ... ON DUPLICATE KEY UPDATE cache_value, expire_time,
    updated_at]: one row affected when it inserts, two when it changes the
    row that was there, none when that row already holds the new values. *)
Definition upsert_kv (key : string) (val : list byte) (expireTime now : Time)
    (db : DB) : Z * DB :=
  match cache_kvs db !! key with
  | None =>
      (1, with_kvs db (<[key := CacheKV.mk val expireTime now now]> (cache_kvs db)))
  | Some old =>
      let new := CacheKV.mk val expireTime (CacheKV.CreatedAt old) now in
      (if decide (new = old) then 0 else 2,
       with_kvs db (<[key := new]> (cache_kvs db)))
  end.

(** [INSERT IGNORE INTO cache_kvs ...]: inserts when no row has the key,
    and is a no-op otherwise. *)
Definition insert_ignore_kv (key : string) (val : list byte) (expireTime now : Time)
    (db : DB) : Z * DB :=
  match cache_kvs db !! key with
  | None =>
      (1, with_kvs db (<[key := CacheKV.mk val expireTime now now]> (cache_kvs db)))
  | Some _ => (0, db)
  end.

(** [DELETE FROM cache_kvs WHERE cache_key = ?] *)
Definition delete_kv (key : string) (db : DB) : Z * DB :=
  match cache_kvs db !! key with
  | None => (0, db)
  | Some _ => (1, with_kvs db (delete key (cache_kvs db)))
  end.

(** [DELETE FROM cache_kvs WHERE expire_time <= ?] *)
Definition delete_expired_kv (now : Time) (db : DB) : Z * DB :=
  let live := filter (λ kr : string * CacheKV.t, now < CacheKV.ExpireTime kr.2)
                     (cache_kvs db) in
  (Z.of_nat (size (cache_kvs db)) - Z.of_nat (size live), with_kvs db live).

(** [UPDATE cache_kvs SET expire_time = ?, updated_at = ? WHERE cache_key = ?] *)
Definition update_expire_time (key : string) (expireTime now : Time)
    (db : DB) : Z * DB :=
  match cache_kvs db !! key with
  | None => (0, db)
  | Some old =>
      let new := CacheKV.mk (CacheKV.CacheValue old) expireTime
                            (CacheKV.CreatedAt old) now in
      (if clientFoundRows db then 1 else if decide (new = old) then 0 else 1,
       with_kvs db (<[key := new]> (cache_kvs db)))
  end.

(** [WHERE cache_key = ? AND expire_time > ?] *)
Definition select_live_kv (key : string) (now : Time) (db : DB) : option CacheKV.t :=
  match cache_kvs db !! key with
  | Some row => if decide (now < CacheKV.ExpireTime row) then Some row else None
  | None => None
  end.

(** ** The client (package oceanbase, [Client]) *)

Definition toBytes (data : any) : list byte :=
  match data with
  | any_bytes bytes => bytes
  | any_string str => list_byte_of_string str
  | _ => []
  end.

(** The error a query method hands back for a failed [First]. *)
Definition not_found_or (e : gorm_error) : error :=
  if decide (gorm_error_Error e = "record not found"
             ∨ gorm_error_Error e = "gorm.ErrRecordNotFound")
  then ErrNotFound else GormError e.

Definition Client_Set (now : Time) (key : string) (value : any) (expire : Duration)
    (db : DB) : option error * DB :=
  let val := toBytes value in
  let expireTime := Time_Add now expire in
  let '(result, db') := gorm.Exec (upsert_kv key val expireTime now) db in
  (GormError <$> gorm.Error result, db').

Definition Client_GetBytes (now : Time) (key : string) (db : DB)
    : list byte * option error :=
  let '(result, cacheKV) := gorm.First (select_live_kv key now) db in
  match gorm.Error result, cacheKV with
  | Some e, _ => ([], Some (not_found_or e))
  | None, Some row => (CacheKV.CacheValue row, None)
  | None, None => ([], None)
  end.

Definition Client_GetString (now : Time) (key : string) (db : DB)
    : string * option error :=
  let '(bytes, err) := Client_GetBytes now key db in
  match err with
  | Some e => ("", Some e)
  | None => (string_of_list_byte bytes, None)
  end.

(** [DELETE FROM cache_kvs WHERE cache_key = ?] through the client. *)
Definition Client_Delete (key : string) (db : DB) : (Z * option error) * DB :=
  let '(result, db') := gorm.Exec (delete_kv key) db in
  ((gorm.RowsAffected result, GormError <$> gorm.Error result), db').

(** [SELECT count( * ) FROM cache_kvs WHERE expire_time > ? [AND cache_key IN ?]] *)
Definition count_live_kv (now : Time) (key : list string) (db : DB) : Z :=
  Z.of_nat (size (filter
    (λ kr : string * CacheKV.t,
       now < CacheKV.ExpireTime kr.2 ∧ (key = [] ∨ kr.1 ∈ key))
    (cache_kvs db))).

Definition Client_Count (now : Time) (key : list string) (db : DB)
    : Z * option error :=
  let '(result, count) := gorm.Count (count_live_kv now key) db in
  (count, GormError <$> gorm.Error result).

(** [INSERT INTO cache_maps ... ON DUPLICATE KEY UPDATE cache_value, updated_at] *)
Definition upsert_map (key field value : string) (now : Time) (db : DB) : Z * DB :=
  match cache_maps db !! (key, field) with
  | None =>
      (1, with_maps db (<[(key, field) := CacheMap.mk value now now]> (cache_maps db)))
  | Some old =>
      let new := CacheMap.mk value (CacheMap.CreatedAt old) now in
      (if decide (new = old) then 0 else 2,
       with_maps db (<[(key, field) := new]> (cache_maps db)))
  end.

Definition Client_SetMapField (now : Time) (key field value : string) (db : DB)
    : option error * DB :=
  let '(result, db') := gorm.Exec (upsert_map key field value now) db in
  (GormError <$> gorm.Error result, db').

Definition Client_GetMapField (key field : string) (db : DB) : string * option error :=
  let '(result, cacheMap) :=
    gorm.First (λ db, cache_maps db !! (key, field)) db in
  match gorm.Error result, cacheMap with
  | Some e, _ => ("", Some (not_found_or e))
  | None, Some row => (CacheMap.CacheValue row, None)
  | None, None => ("", None)
  end.

Definition delete_map_field (key field : string) (db : DB) : Z * DB :=
  match cache_maps db !! (key, field) with
  | None => (0, db)
  | Some _ => (1, with_maps db (delete (key, field) (cache_maps db)))
  end.

Definition Client_DeleteMapField (key field : string) (db : DB) : option error * DB :=
  let '(result, db') := gorm.Exec (delete_map_field key field) db in
  (GormError <$> gorm.Error result, db').

(** [convertRegexToSQL]: every [*] becomes [%]. *)
Fixpoint convertRegexToSQL (pattern : string) : string :=
  match pattern with
  | EmptyString => EmptyString
  | String c rest =>
      String (if decide (c = "*"%char) then "%"%char else c) (convertRegexToSQL rest)
  end.

(** The rows of [cache_maps] a query selects, as (field, row), in the order
    in which the store enumerates the table: [WHERE cache_key = ?], and
    [AND cache_field LIKE ?] when a pattern is given. *)
Definition select_maps (key : string) (pattern : option string) (db : DB)
    : list (string * CacheMap.t) :=
  omap (λ kfr : string * string * CacheMap.t,
          let '(k, f, row) := kfr in
          if decide (k = key) then
            match pattern with
            | None => Some (f, row)
            | Some p => if LIKE db f p then Some (f, row) else None
            end
          else None)
       (map_to_list (cache_maps db)).

Definition Client_GetMap (key : string) (db : DB)
    : gmap string string * option error :=
  let '(result, cacheMaps) := gorm.Find (select_maps key None) db in
  match gorm.Error result with
  | Some e => (∅, Some (GormError e))
  | None =>
      let resultMap :=
        foldl (λ (m : gmap string string) (fr : string * CacheMap.t),
                 <[fr.1 := CacheMap.CacheValue fr.2]> m) ∅ cacheMaps in
      if decide (size resultMap = 0%nat) then (∅, Some ErrNotFound)
      else (resultMap, None)
  end.

(** [int(cursor)]: a [uint64] read as an [int] of 64 bits. *)
Definition int_of_uint64 (u : Z) : Z := wrap_int64 u.

(** [Offset(n)]: no row is skipped unless [n] is positive. *)
Definition Offset {A} (n : Z) (rows : list A) : list A := drop (Z.to_nat n) rows.

(** [Limit(n)]: at most [n] rows; a negative [n] is no limit. *)
Definition Limit {A} (n : Z) (rows : list A) : list A :=
  if decide (n < 0) then rows else take (Z.to_nat n) rows.

Definition flatten_fields (rows : list (string * CacheMap.t)) : list string :=
  flat_map (λ fr : string * CacheMap.t, [fr.1; CacheMap.CacheValue fr.2]) rows.

Definition Client_ScanMapStream (key : string) (cursor : Z) (match_ : string)
    (count : Z) (db : DB) : (list string * Z) * option error :=
  let pattern :=
    if decide (match_ = "") then None else Some (convertRegexToSQL match_) in
  let '(result, cacheMaps) :=
    gorm.Find (λ db, Limit count (Offset (int_of_uint64 cursor)
                                         (select_maps key pattern db))) db in
  match gorm.Error result with
  | Some e => (([], 0), Some (GormError e))
  | None =>
      let keys := flatten_fields cacheMaps in
      let nextCursor := wrap_uint64 (cursor + Z.of_nat (length cacheMaps)) in
      let nextCursor :=
        if decide (Z.of_nat (length cacheMaps) < count) then 0 else nextCursor in
      ((keys, nextCursor), None)
  end.

Definition Client_SetNX (now : Time) (key : string) (value : any) (expire : Duration)
    (db : DB) : (bool * option error) * DB :=
  let val := toBytes value in
  let expireTime := Time_Add now expire in
  let '(result, db') := gorm.Exec (insert_ignore_kv key val expireTime now) db in
  match gorm.Error result with
  | Some e => ((false, Some (GormError e)), db')
  | None => ((bool_decide (gorm.RowsAffected result = 1), None), db')
  end.

Definition Client_Expire (now : Time) (key : string) (expire : Duration) (db : DB)
    : (bool * option error) * DB :=
  let expireTime := Time_Add now expire in
  let '(result, db') := gorm.Exec (update_expire_time key expireTime now) db in
  ((bool_decide (gorm.RowsAffected result > 0), GormError <$> gorm.Error result), db').

(** [Transaction]: [fn] runs on the transaction's handle; what it wrote is
    kept when it returns no error and discarded when it returns one.  [fn]
    is a closure: [A] is the type of the variables it captures and assigns,
    [a0] their values when the transaction cannot even begin. *)
Definition Client_Transaction {A} (a0 : A) (fn : DB -> (A * option error) * DB)
    (db : DB) : (A * option error) * DB :=
  match fault db with
  | Some msg => ((a0, Some (GormError (DriverError msg))), db)
  | None =>
      let '((a, err), tx) := fn db in
      match err with
      | Some e => ((a, Some e), db)
      | None => ((a, None), tx)
      end
  end.

(** [Create(&msg)] on [cache_messages]: the store assigns the next id. *)
Definition insert_message (channel message : string) (now : Time) (db : DB) : Z * DB :=
  let msg := Message.mk (next_message_id db) channel message now now in
  (1, with_messages db (cache_messages db ++ [msg]) (next_message_id db + 1)).

Definition Client_Publish (now : Time) (channel message : string) (db : DB)
    : option error * DB :=
  let '(result, db') := gorm.Exec (insert_message channel message now) db in
  (GormError <$> gorm.Error result, db').

(** One round of [cleanExpiredCache]: the rows whose expiry has passed are
    deleted; a failure is logged and the state is left as it was. *)
Definition cleanExpiredCache_round (now : Time) (db : DB) : DB :=
  (gorm.Exec (delete_expired_kv now) db).2.

(** ** The contract (package cache) *)

Module cache.
(** The methods of [cache.Client] over a store of type [S].  [Subscribe],
    which starts a goroutine, is modelled apart, as a transition system.
    [Transaction] hands [fn] the handle of the transaction, on which the
    same methods apply ([context.Get()]). *)
Class Client (S : Type) : Type := {
  Close : S -> option error;
  Set_ : Time -> string -> any -> Duration -> S -> option error * S;
  GetBytes : Time -> string -> S -> list byte * option error;
  GetString : Time -> string -> S -> string * option error;
  Delete : string -> S -> (Z * option error) * S;
  Count : Time -> list string -> S -> Z * option error;
  SetMapField : Time -> string -> string -> string -> S -> option error * S;
  GetMapField : string -> string -> S -> string * option error;
  DeleteMapField : string -> string -> S -> option error * S;
  GetMap : string -> S -> gmap string string * option error;
  ScanMapStream : string -> Z -> string -> Z -> S -> (list string * Z) * option error;
  SetNX : Time -> string -> any -> Duration -> S -> (bool * option error) * S;
  Expire : Time -> string -> Duration -> S -> (bool * option error) * S;
  Transaction : ∀ A : Type, A -> (S -> (A * option error) * S) -> S
                -> (A * option error) * S;
  Publish : Time -> string -> string -> S -> option error * S;
}.
End cache.

#[global] Instance oceanbase_Client : cache.Client DB := {|
  cache.Close := λ _, None;
  cache.Set_ := Client_Set;
  cache.GetBytes := Client_GetBytes;
  cache.GetString := Client_GetString;
  cache.Delete := Client_Delete;
  cache.Count := Client_Count;
  cache.SetMapField := Client_SetMapField;
  cache.GetMapField := Client_GetMapField;
  cache.DeleteMapField := Client_DeleteMapField;
  cache.GetMap := Client_GetMap;
  cache.ScanMapStream := Client_ScanMapStream;
  cache.SetNX := Client_SetNX;
  cache.Expire := Client_Expire;
  cache.Transaction := @Client_Transaction;
  cache.Publish := Client_Publish;
|}.

(** ** strconv *)

Module strconv.
Definition maxUint64 : Z := 2 ^ 64 - 1.

Definition is_digit (c : ascii) : bool :=
  let n := Z.of_N (N_of_ascii c) in bool_decide (48 <= n <= 57).

Definition digit_value (c : ascii) : Z := Z.of_N (N_of_ascii c) - 48.

(** The loop of [ParseUint(s, 10, 64)] from the accumulator [n]: the
    value, and the error at the first byte that is not a digit or at the
    first digit that overflows. *)
Fixpoint ParseUint_loop (cs : list ascii) (n : Z) : Z * option strconv_error :=
  match cs with
  | [] => (n, None)
  | c :: cs' =>
      if is_digit c then
        if decide (n >= maxUint64 / 10 + 1) then (maxUint64, Some ErrRange)
        else
          let n' := n * 10 in
          let n1 := wrap_uint64 (n' + digit_value c) in
          if decide (n1 < n' ∨ n1 > maxUint64) then (maxUint64, Some ErrRange)
          else ParseUint_loop cs' n1
      else (0, Some ErrSyntax)
  end.

Definition ParseUint (s : string) : Z * option strconv_error :=
  if decide (s = "") then (0, Some ErrSyntax)
  else ParseUint_loop (list_ascii_of_string s) 0.

(** [ParseInt(s, 10, 64)] *)
Definition ParseInt (s : string) : Z * option error :=
  match s with
  | EmptyString => (0, Some (NumError "ParseInt" s ErrSyntax))
  | String c rest =>
      let neg := bool_decide (c = "-"%char) in
      let digits := if decide (c = "+"%char ∨ c = "-"%char) then rest else s in
      let '(un, err) := ParseUint digits in
      match err with
      | Some ErrSyntax => (0, Some (NumError "ParseInt" s ErrSyntax))
      | _ =>
          let cutoff := 2 ^ 63 in
          if decide (neg = false ∧ un >= cutoff)
          then (cutoff - 1, Some (NumError "ParseInt" s ErrRange))
          else if decide (neg = true ∧ un > cutoff)
          then (- cutoff, Some (NumError "ParseInt" s ErrRange))
          else (if neg then - un else un, None)
      end
  end.

(** [FormatInt(i, 10)] *)
Definition FormatInt (i : Z) : string := NilZero.string_of_int (Z.to_int i).
End strconv.

(** The number read from the digits [d] after the number [n]. *)
Fixpoint read_digits (d : Decimal.uint) (n : Z) : Z :=
  match d with
  | Decimal.Nil => n
  | Decimal.D0 l => read_digits l (10 * n)
  | Decimal.D1 l => read_digits l (1 + 10 * n)
  | Decimal.D2 l => read_digits l (2 + 10 * n)
  | Decimal.D3 l => read_digits l (3 + 10 * n)
  | Decimal.D4 l => read_digits l (4 + 10 * n)
  | Decimal.D5 l => read_digits l (5 + 10 * n)
  | Decimal.D6 l => read_digits l (6 + 10 * n)
  | Decimal.D7 l => read_digits l (7 + 10 * n)
  | Decimal.D8 l => read_digits l (8 + 10 * n)
  | Decimal.D9 l => read_digits l (9 + 10 * n)
  end.

(** ** The command adapter (package oceanbase, [CmdableAdapter]) *)

Record StatusCmdAdapter : Type := mkStatusCmd { StatusCmd_err : option error }.
Record StringCmdAdapter : Type :=
  mkStringCmd { StringCmd_val : string; StringCmd_err : option error }.
Record IntCmdAdapter : Type :=
  mkIntCmd { IntCmd_val : Z; IntCmd_err : option error }.
Record BoolCmdAdapter : Type :=
  mkBoolCmd { BoolCmd_val : bool; BoolCmd_err : option error }.
Record MapStringStringCmdAdapter : Type :=
  mkMapCmd { MapCmd_val : gmap string string; MapCmd_err : option error }.
Record StringSliceCmdAdapter : Type :=
  mkSliceCmd { SliceCmd_val : list string; SliceCmd_err : option error }.

Definition StatusCmdAdapter_Err (s : StatusCmdAdapter) := StatusCmd_err s.
Definition StatusCmdAdapter_Result (s : StatusCmdAdapter) := ("", StatusCmd_err s).
Definition StringCmdAdapter_Err (s : StringCmdAdapter) := StringCmd_err s.
Definition StringCmdAdapter_Result (s : StringCmdAdapter) :=
  (StringCmd_val s, StringCmd_err s).
Definition IntCmdAdapter_Err (i : IntCmdAdapter) := IntCmd_err i.
Definition IntCmdAdapter_Result (i : IntCmdAdapter) := (IntCmd_val i, IntCmd_err i).
Definition BoolCmdAdapter_Err (b : BoolCmdAdapter) := BoolCmd_err b.
Definition BoolCmdAdapter_Result (b : BoolCmdAdapter) := (BoolCmd_val b, BoolCmd_err b).
Definition StringSliceCmdAdapter_Err (s : StringSliceCmdAdapter) := SliceCmd_err s.
Definition StringSliceCmdAdapter_Result (s : StringSliceCmdAdapter) :=
  (SliceCmd_val s, SliceCmd_err s).

Section CmdableAdapter.
Context {S : Type} `{client : cache.Client S}.


Definition CmdableAdapter_Get (now : Time) (key : string) (s : S)
    : StringCmdAdapter :=
  let '(val, err) := cache.GetString now key s in mkStringCmd val err.

(** The closure [IncrBy] passes to [Transaction].  It captures and
    assigns [result], whose value it returns beside its error; [now] and
    [now'] are the instants of its read and of its write. *)
Definition IncrBy_fn (now now' : Time) (key : string) (value : Z) (tx : S)
    : (Z * option error) * S :=
  let '(currentVal, err) := cache.GetString now key tx in
  let continue (current : Z) :=
    let result := wrap_int64 (current + value) in
    let '(err', tx') :=
      cache.Set_ now' key (any_string (strconv.FormatInt result)) 0 tx in
    ((result, err'), tx') in
  match err with
  | Some ErrNotFound => continue 0
  | Some e => ((0, Some e), tx)
  | None =>
      let '(current, perr) := strconv.ParseInt currentVal in
      match perr with
      | Some e => ((0, Some e), tx)
      | None => continue current
      end
  end.

Definition CmdableAdapter_IncrBy (now now' : Time) (key : string) (value : Z)
    (s : S) : IntCmdAdapter * S :=
  let '((result, err), s') :=
    cache.Transaction Z 0 (IncrBy_fn now now' key value) s in
  match err with
  | Some e => (mkIntCmd 0 (Some e), s')
  | None => (mkIntCmd result None, s')
  end.

Definition CmdableAdapter_Incr (now now' : Time) (key : string) (s : S)
    : IntCmdAdapter * S :=
  CmdableAdapter_IncrBy now now' key 1 s.

(** The loop of [HSet]: [values] from index [i] on, two at a time; a
    pair is stored when both of its elements are strings, and the last
    element of an odd tail is not looked at. *)
Fixpoint HSet_loop (now : Time) (key : string) (values : list any) (s : S)
    : option error * S :=
  match values with
  | f :: v :: rest =>
      match f, v with
      | any_string field, any_string value =>
          let '(err, s') := cache.SetMapField now key field value s in
          match err with
          | Some e => (Some e, s')
          | None => HSet_loop now key rest s'
          end
      | _, _ => HSet_loop now key rest s
      end
  | _ => (None, s)
  end.

Definition CmdableAdapter_HSet (now : Time) (key : string) (values : list any)
    (s : S) : IntCmdAdapter * S :=
  if decide (2 <= length values)%nat then
    let '(err, s') := HSet_loop now key values s in
    match err with
    | Some e => (mkIntCmd 0 (Some e), s')
    | None => (mkIntCmd 1 None, s')
    end
  else (mkIntCmd 0 (Some ErrNotFound), s).

Definition CmdableAdapter_HGetAll (key : string) (s : S)
    : MapStringStringCmdAdapter :=
  let '(val, err) := cache.GetMap key s in mkMapCmd val err.

Fixpoint Del_loop (keys : list string) (totalDeleted : Z) (s : S)
    : IntCmdAdapter * S :=
  match keys with
  | [] => (mkIntCmd totalDeleted None, s)
  | key :: rest =>
      let '((deleted, err), s') := cache.Delete key s in
      match err with
      | Some e => (mkIntCmd 0 (Some e), s')
      | None => Del_loop rest (wrap_int64 (totalDeleted + deleted)) s'
      end
  end.

Definition CmdableAdapter_Del (keys : list string) (s : S) : IntCmdAdapter * S :=
  Del_loop keys 0 s.

Definition CmdableAdapter_Exists (now : Time) (keys : list string) (s : S)
    : IntCmdAdapter :=
  match keys with
  | [] => mkIntCmd 0 None
  | _ => let '(count, err) := cache.Count now keys s in mkIntCmd count err
  end.

Definition CmdableAdapter_Expire (now : Time) (key : string)
    (expiration : Duration) (s : S) : BoolCmdAdapter * S :=
  let '((success, err), s') := cache.Expire now key expiration s in
  (mkBoolCmd success err, s').

(** The list commands do not call the client. *)
Definition CmdableAdapter_LIndex (key : string) (index : Z) : StringCmdAdapter :=
  mkStringCmd "" (Some ErrNotFound).
Definition CmdableAdapter_LPush (key : string) (values : list any) : IntCmdAdapter :=
  mkIntCmd 0 (Some ErrNotFound).
Definition CmdableAdapter_RPush (key : string) (values : list any) : IntCmdAdapter :=
  mkIntCmd 0 (Some ErrNotFound).
Definition CmdableAdapter_LSet (key : string) (index : Z) (value : any)
    : StatusCmdAdapter :=
  mkStatusCmd (Some ErrNotFound).
Definition CmdableAdapter_LPop (key : string) : StringCmdAdapter :=
  mkStringCmd "" (Some ErrNotFound).
Definition CmdableAdapter_LRange (key : string) (start stop : Z)
    : StringSliceCmdAdapter :=
  mkSliceCmd [] (Some ErrNotFound).
End CmdableAdapter.

(** [Pipeline] returns an adapter that holds nothing; its [Exec] returns no
    command and the error. *)
Inductive Cmder : Type :=
  | Cmder_Status (c : StatusCmdAdapter)
  | Cmder_String (c : StringCmdAdapter)
  | Cmder_Int (c : IntCmdAdapter).

Inductive PipelinerAdapter : Set := mkPipelinerAdapter.

Definition CmdableAdapter_Pipeline : PipelinerAdapter := mkPipelinerAdapter.
Definition PipelinerAdapter_Pipeline (p : PipelinerAdapter) : PipelinerAdapter := p.
Definition PipelinerAdapter_Exec (p : PipelinerAdapter) : list Cmder * option error :=
  ([], Some ErrNotFound).

(** ** Paging through a map *)


(** ** Subscriptions *)

Definition Message_le (a b : Message.t) : Prop := Message.ID a <= Message.ID b.

#[global] Instance Message_le_dec : RelDecision Message_le.
Proof. intros a b. unfold Message_le. apply _. Defined.

(** [WHERE channel = ? AND id > ? ORDER BY id ASC LIMIT 10] *)
Definition select_messages (channel : string) (last : Z) (db : DB) : list Message.t :=
  Limit 10
    (merge_sort Message_le
       (filter (λ m : Message.t, Message.Channel m = channel ∧ last < Message.ID m)
               (cache_messages db))).

(** [FirstOrCreate] with [Assign]: the row of the subscriber is created, or
    found and assigned, with [LastMessageId] -1. *)
Definition first_or_create_subscribe (channel subscriber : string) (now : Time)
    (db : DB) : Z * DB :=
  let created :=
    match cache_message_subscribes db !! (channel, subscriber) with
    | Some old => MessageSubscribe.CreatedAt old
    | None => now
    end in
  (1, with_subscribes db
        (<[(channel, subscriber) := MessageSubscribe.mk (-1) created now]>
           (cache_message_subscribes db))).

(** [UPDATE cache_message_subscribes SET last_message_id = ?, updated_at = ?
    WHERE channel = ? AND subscriber = ?] *)
Definition update_last_message_id (channel subscriber : string) (id : Z) (now : Time)
    (db : DB) : Z * DB :=
  match cache_message_subscribes db !! (channel, subscriber) with
  | None => (0, db)
  | Some old =>
      (1, with_subscribes db
            (<[(channel, subscriber) :=
                 MessageSubscribe.mk id (MessageSubscribe.CreatedAt old) now]>
               (cache_message_subscribes db)))
  end.

Definition delete_subscribe (channel subscriber : string) (db : DB) : Z * DB :=
  match cache_message_subscribes db !! (channel, subscriber) with
  | None => (0, db)
  | Some _ =>
      (1, with_subscribes db (delete (channel, subscriber) (cache_message_subscribes db)))
  end.

(** Where the goroutine of [Subscribe] stands. *)
Inductive pc : Type :=
  | Waiting                                         (* at the outer select *)
  | Delivering (messages : list Message.t)          (* at the inner select, for the head *)
  | Sent (msg : Message.t) (rest : list Message.t)  (* [ch <- msg.Message] done *)
  | Advanced (msg : Message.t) (rest : list Message.t) (* [LastMessageId] assigned *)
  | Returned.                                       (* deferred calls done, [ch] closed *)

(** One subscription: the variables of [Subscribe] and of its goroutine.
    [sub_ch] is the buffer of the channel [ch], oldest first; a message
    in it or in [sub_received] is kept as its row, so that the id of a
    payload can be told.  [sub_received] is what the consumer has taken
    out of [ch] so far. *)
Record subscription : Type := mkSub {
  sub_channel : string;
  sub_subscriber : string;
  sub_LastMessageId : Z;
  sub_pc : pc;
  sub_ch : list Message.t;
  sub_stop : bool;
  sub_received : list Message.t;
}.

Definition ch_capacity : nat := 100.

Definition set_pc (s : subscription) (p : pc) : subscription :=
  mkSub (sub_channel s) (sub_subscriber s) (sub_LastMessageId s) p
        (sub_ch s) (sub_stop s) (sub_received s).

Definition payloads (l : list Message.t) : list string := Message.Message <$> l.

(** [Subscribe], up to the start of the goroutine.  When the store does
    not answer, the row is not created and [subscription] keeps the zero
    value of its type. *)
Definition Client_Subscribe (now : Time) (channel : string) (db : DB)
    : subscription * DB :=
  let subscriber := "sub_" ++ strconv.FormatInt now in
  let '(result, db') :=
    gorm.Exec (first_or_create_subscribe channel subscriber now) db in
  let last := match gorm.Error result with Some _ => 0 | None => -1 end in
  (mkSub channel subscriber last Waiting [] false [], db').

(** The steps of the goroutine, of the consumer and of the other clients
    of the store. *)
Inductive step : DB * subscription -> DB * subscription -> Prop :=
  | step_tick db s :
      sub_pc s = Waiting ->
      step (db, s)
           (db, let '(result, messages) :=
                  gorm.Find (select_messages (sub_channel s) (sub_LastMessageId s)) db in
                match gorm.Error result with
                | Some _ => s
                | None => set_pc s (Delivering messages)
                end)
  | step_range_end db s :
      sub_pc s = Delivering [] ->
      step (db, s) (db, set_pc s Waiting)
  | step_send db s msg rest :
      sub_pc s = Delivering (msg :: rest) ->
      (length (sub_ch s) < ch_capacity)%nat ->
      step (db, s)
           (db, mkSub (sub_channel s) (sub_subscriber s) (sub_LastMessageId s)
                      (Sent msg rest) (sub_ch s ++ [msg]) (sub_stop s)
                      (sub_received s))
  | step_advance db s msg rest :
      sub_pc s = Sent msg rest ->
      step (db, s)
           (db, mkSub (sub_channel s) (sub_subscriber s) (Message.ID msg)
                      (Advanced msg rest) (sub_ch s) (sub_stop s) (sub_received s))
  | step_persist now db s msg rest :
      sub_pc s = Advanced msg rest ->
      step (db, s)
           ((gorm.Exec (update_last_message_id (sub_channel s) (sub_subscriber s)
                                               (Message.ID msg) now) db).2,
            set_pc s (Delivering rest))
  | step_stop db s :
      sub_stop s = false ->
      step (db, s)
           (db, mkSub (sub_channel s) (sub_subscriber s) (sub_LastMessageId s)
                      (sub_pc s) (sub_ch s) true (sub_received s))
  | step_return db s :
      sub_stop s = true ->
      (sub_pc s = Waiting ∨ ∃ msg rest, sub_pc s = Delivering (msg :: rest)) ->
      step (db, s)
           ((gorm.Exec (delete_subscribe (sub_channel s) (sub_subscriber s)) db).2,
            set_pc s Returned)
  | step_receive db s msg rest :
      sub_ch s = msg :: rest ->
      step (db, s)
           (db, mkSub (sub_channel s) (sub_subscriber s) (sub_LastMessageId s)
                      (sub_pc s) rest (sub_stop s) (sub_received s ++ [msg]))
  | step_other db db' s :
      cache_message_subscribes db' !! (sub_channel s, sub_subscriber s)
        = cache_message_subscribes db !! (sub_channel s, sub_subscriber s) ->
      step (db, s) (db', s).

(** Everything handed to the channel so far, in the order of the sends. *)
Definition handed_off (s : subscription) : list Message.t := sub_received s ++ sub_ch s.

(** The cursor the store holds for the subscriber. *)
Definition persisted_cursor (db : DB) (s : subscription) : option Z :=
  MessageSubscribe.LastMessageId
    <$> cache_message_subscribes db !! (sub_channel s, sub_subscriber s).

(** ** The pairs of a field/value sequence *)

(** The pairs [(values[2i], values[2i+1])] of which both elements are
    strings, in order. *)
Fixpoint string_pairs (values : list any) : list (string * string) :=
  match values with
  | any_string field :: any_string value :: rest => (field, value) :: string_pairs rest
  | _ :: _ :: rest => string_pairs rest
  | _ => []
  end.

(** [SetMapField] on each pair in turn, up to the first error. *)
Fixpoint SetMapField_each {S : Type} `{client : cache.Client S} (now : Time)
    (key : string) (pairs : list (string * string)) (s : S) : option error * S :=
  match pairs with
  | [] => (None, s)
  | (field, value) :: rest =>
      let '(err, s') := cache.SetMapField now key field value s in
      match err with
      | Some e => (Some e, s')
      | None => SetMapField_each now key rest s'
      end
  end.

(** The value the last pair for [field] gives it, [otherwise] when no pair
    names the field. *)
Fixpoint last_value (field : string) (pairs : list (string * string))
    (otherwise : option string) : option string :=
  match pairs with
  | [] => otherwise
  | (f, v) :: rest =>
      last_value field rest (if decide (f = field) then Some v else otherwise)
  end.

(** What holds of a subscription whatever the steps taken.  At each point
    of the goroutine: the ids handed off so far are bounded by the cursor
    in memory (by the id just sent, between the send and the assignment),
    and the messages of the batch still to deliver are in ascending order
    of id, none below that bound. *)
Definition pc_inv (s : subscription) : Prop :=
  let last := sub_LastMessageId s in
  match sub_pc s with
  | Waiting | Returned =>
      Forall (λ m, Message.ID m <= last) (handed_off s)
  | Delivering messages =>
      Forall (λ m, Message.ID m <= last) (handed_off s)
      ∧ StronglySorted Message_le messages
      ∧ Forall (λ m, last <= Message.ID m) messages
  | Sent msg rest =>
      Forall (λ m, Message.ID m <= Message.ID msg) (handed_off s)
      ∧ msg ∈ handed_off s
      ∧ StronglySorted Message_le (msg :: rest)
  | Advanced msg rest =>
      last = Message.ID msg
      ∧ Forall (λ m, Message.ID m <= last) (handed_off s)
      ∧ msg ∈ handed_off s
      ∧ StronglySorted Message_le (msg :: rest)
  end.

(** A cursor is the initial one or the id of a message handed off. *)
Definition cursor_handed_off (id : Z) (s : subscription) : Prop :=
  id = -1 ∨ ∃ m, m ∈ handed_off s ∧ Message.ID m = id.

(** The order of what is handed off, and the room in the channel. *)
Record order_inv (s : subscription) : Prop := mk_order_inv {
  inv_sorted : StronglySorted Message_le (handed_off s);
  inv_pc : pc_inv s;
  inv_capacity : (length (sub_ch s) <= ch_capacity)%nat;
}.

(** The cursors, in the store and in memory. *)
Record cursor_inv (db : DB) (s : subscription) : Prop := mk_cursor_inv {
  inv_persisted : ∀ id, persisted_cursor db s = Some id → cursor_handed_off id s;
  inv_last : cursor_handed_off (sub_LastMessageId s) s;
}.

(** ** A run of a subscription *)

(** Two messages are published on a channel, then a subscriber attaches,
    polls, is handed both messages and has taken the first out of the
    channel. *)
Definition news_db : DB :=
  (Client_Publish 2 "news" "second" (Client_Publish 1 "news" "first" empty_DB).2).2.

Definition news_first : Message.t := Message.mk 1 "news" "first" 1 1.
Definition news_second : Message.t := Message.mk 2 "news" "second" 2 2.

Definition news_sub : subscription :=
  mkSub "news" "sub_5" 2 (Delivering []) [news_second] false [news_first].

Definition news_db_after : DB :=
  (gorm.Exec (update_last_message_id "news" "sub_5" 2 7)
     (gorm.Exec (update_last_message_id "news" "sub_5" 1 6)
        (Client_Subscribe 5 "news" news_db).2).2).2.

(** ** More of the result adapters *)




Definition MapStringStringCmdAdapter_Err (m : MapStringStringCmdAdapter) := MapCmd_err m.
Definition MapStringStringCmdAdapter_Result (m : MapStringStringCmdAdapter) :=
  (MapCmd_val m, MapCmd_err m).

(** ** The message log *)

Definition Message_lt (a b : Message.t) : Prop := Message.ID a < Message.ID b.

(** The log as [Create] builds it: ids ascend along the log, are positive,
    and lie below the id the store assigns next. *)
Definition log_ok (db : DB) : Prop :=
  StronglySorted Message_lt (cache_messages db)
  ∧ Forall (λ m, 0 < Message.ID m < next_message_id db) (cache_messages db)
  ∧ 0 < next_message_id db.

(** The messages of a channel above a cursor, in the order of the log. *)
Definition pending_messages (channel : string) (last : Z) (db : DB) : list Message.t :=
  filter (λ m : Message.t, Message.Channel m = channel ∧ last < Message.ID m)
         (cache_messages db).

(** A key has a row that is live at an instant. *)
Definition live_row (now : Time) (m : gmap string CacheKV.t) (key : string) : Prop :=
  ∃ row, m !! key = Some row ∧ now < CacheKV.ExpireTime row.

#[global] Instance live_row_dec now m key : Decision (live_row now m key).
Proof.
  unfold live_row. destruct (m !! key) as [row|].
  - destruct (decide (now < CacheKV.ExpireTime row)).
    + left. by exists row.
    + right. intros (row' & [= <-] & ?). done.
  - right. by intros (row & ? & _).
Defined.

(** ** More on subscriptions *)

(** The messages of the batch the goroutine is working on. *)
Definition batch_of (p : pc) : list Message.t :=
  match p with
  | Delivering messages => messages
  | Sent msg rest | Advanced msg rest => msg :: rest
  | Waiting | Returned => []
  end.

(** Every message handed off or about to be is of the channel subscribed
    to. *)
Definition channel_inv (channel : string) (s : subscription) : Prop :=
  sub_channel s = channel
  ∧ Forall (λ m, Message.Channel m = channel) (handed_off s)
  ∧ Forall (λ m, Message.Channel m = channel) (batch_of (sub_pc s)).

(** A step after which the log is as [Create] builds it: the other clients
    of the store append to the log, and do not rewrite it. *)
Definition step_on_log (st st' : DB * subscription) : Prop :=
  step st st' ∧ log_ok st'.1.

(** [pc_inv] with ids that are distinct: the batch ascends strictly, above
    the cursor. *)
Definition pc_strict (s : subscription) : Prop :=
  let last := sub_LastMessageId s in
  match sub_pc s with
  | Waiting | Returned =>
      Forall (λ m, Message.ID m <= last) (handed_off s)
  | Delivering messages =>
      Forall (λ m, Message.ID m <= last) (handed_off s)
      ∧ StronglySorted Message_lt messages
      ∧ Forall (λ m, last < Message.ID m) messages
  | Sent msg rest =>
      Forall (λ m, Message.ID m <= Message.ID msg) (handed_off s)
      ∧ StronglySorted Message_lt (msg :: rest)
  | Advanced msg rest =>
      last = Message.ID msg
      ∧ Forall (λ m, Message.ID m <= last) (handed_off s)
      ∧ StronglySorted Message_lt (msg :: rest)
  end.

Definition strict_inv (st : DB * subscription) : Prop :=
  log_ok st.1
  ∧ StronglySorted Message_lt (handed_off st.2)
  ∧ pc_strict st.2.



(** * Properties *)

(** ** Scalar entries *)

Section scalar.
Implicit Types (db : DB) (key : string) (row : CacheKV.t).

Lemma not_found_or_ErrRecordNotFound : not_found_or ErrRecordNotFound = ErrNotFound.
Proof. reflexivity. Qed.

(** What [Set] leaves behind on a store that answers. *)
Lemma Client_Set_healthy now key value expire db :
  fault db = None →
  ∃ created,
    Client_Set now key value expire db =
      (None, with_kvs db (<[key := CacheKV.mk (toBytes value) (now + expire) created now]>
                            (cache_kvs db))).
Proof.
  intros Hf. unfold Client_Set, gorm.Exec, upsert_kv, Time_Add. rewrite Hf.
  destruct (cache_kvs db !! key) as [old|]; simpl; eauto.
Qed.

(** [GetBytes] and [GetString] depend on the row of the key alone. *)
Lemma Client_GetBytes_live now key db row :
  fault db = None → cache_kvs db !! key = Some row →
  now < CacheKV.ExpireTime row →
  Client_GetBytes now key db = (CacheKV.CacheValue row, None).
Proof.
  intros Hf Hrow Hlive. unfold Client_GetBytes, gorm.First, select_live_kv.
  rewrite Hf, Hrow. by rewrite decide_True.
Qed.

Lemma Client_GetBytes_expired now key db row :
  fault db = None → cache_kvs db !! key = Some row →
  CacheKV.ExpireTime row <= now →
  Client_GetBytes now key db = ([], Some ErrNotFound).
Proof.
  intros Hf Hrow Hexp. unfold Client_GetBytes, gorm.First, select_live_kv.
  rewrite Hf, Hrow. rewrite decide_False by lia. reflexivity.
Qed.

Lemma Client_GetBytes_absent now key db :
  fault db = None → cache_kvs db !! key = None →
  Client_GetBytes now key db = ([], Some ErrNotFound).
Proof.
  intros Hf Hrow. unfold Client_GetBytes, gorm.First, select_live_kv.
  by rewrite Hf, Hrow.
Qed.

Lemma Client_GetString_live now key db row :
  fault db = None → cache_kvs db !! key = Some row →
  now < CacheKV.ExpireTime row →
  Client_GetString now key db = (string_of_list_byte (CacheKV.CacheValue row), None).
Proof.
  intros. unfold Client_GetString. by erewrite Client_GetBytes_live.
Qed.

Lemma Client_GetString_expired now key db row :
  fault db = None → cache_kvs db !! key = Some row →
  CacheKV.ExpireTime row <= now →
  Client_GetString now key db = ("", Some ErrNotFound).
Proof.
  intros. unfold Client_GetString. by erewrite Client_GetBytes_expired.
Qed.

Lemma Client_GetString_absent now key db :
  fault db = None → cache_kvs db !! key = None →
  Client_GetString now key db = ("", Some ErrNotFound).
Proof.
  intros. unfold Client_GetString. by erewrite Client_GetBytes_absent.
Qed.
End scalar.

Section scalar_claims.
Implicit Types (db : DB) (k key : string) (row : CacheKV.t).

Lemma Client_Set_row now key value expire db :
  fault db = None →
  (Client_Set now key value expire db).1 = None
  ∧ fault (Client_Set now key value expire db).2 = None
  ∧ ∃ row, cache_kvs (Client_Set now key value expire db).2 !! key = Some row
           ∧ CacheKV.CacheValue row = toBytes value
           ∧ CacheKV.ExpireTime row = now + expire.
Proof.
  intros Hf. destruct (Client_Set_healthy now key value expire db Hf) as [created ->].
  simpl. repeat split; [done|]. eexists. rewrite lookup_insert_eq. done.
Qed.

(** Calls on other keys leave the row of a key as it is. *)
Lemma Client_Set_other now key value expire db k :
  key ≠ k →
  cache_kvs (Client_Set now key value expire db).2 !! k = cache_kvs db !! k.
Proof.
  intros Hne. unfold Client_Set, gorm.Exec, upsert_kv.
  destruct (fault db); [done|].
  destruct (cache_kvs db !! key); simpl; by rewrite lookup_insert_ne.
Qed.

Lemma Client_Delete_other key db k :
  key ≠ k → cache_kvs (Client_Delete key db).2 !! k = cache_kvs db !! k.
Proof.
  intros Hne. unfold Client_Delete, gorm.Exec, delete_kv.
  destruct (fault db); [done|].
  destruct (cache_kvs db !! key); simpl; [|done]. by rewrite lookup_delete_ne.
Qed.

Lemma Client_Expire_other now key expire db k :
  key ≠ k → cache_kvs (Client_Expire now key expire db).2 !! k = cache_kvs db !! k.
Proof.
  intros Hne. unfold Client_Expire, gorm.Exec, update_expire_time.
  destruct (fault db); [done|].
  destruct (cache_kvs db !! key); simpl; [|done]. by rewrite lookup_insert_ne.
Qed.

(** [SetNX] leaves every row that exists as it is, the row of its own
    key included. *)
Lemma Client_SetNX_present now key value expire db k row :
  cache_kvs db !! k = Some row →
  cache_kvs (Client_SetNX now key value expire db).2 !! k = Some row.
Proof.
  intros Hrow. unfold Client_SetNX, gorm.Exec, insert_ignore_kv.
  destruct (fault db); [done|].
  destruct (cache_kvs db !! key) eqn:Hkey; simpl; [done|].
  rewrite lookup_insert_ne; [done|]. intros ->. congruence.
Qed.

(** A round of the reaper keeps a row that is live at that instant and
    deletes a row that is not. *)
Lemma cleanExpiredCache_round_lookup now db k :
  fault db = None →
  cache_kvs (cleanExpiredCache_round now db) !! k
  = match cache_kvs db !! k with
    | Some row => if decide (now < CacheKV.ExpireTime row) then Some row else None
    | None => None
    end.
Proof.
  intros Hf. unfold cleanExpiredCache_round, gorm.Exec, delete_expired_kv.
  rewrite Hf. simpl. rewrite map_lookup_filter.
  destruct (cache_kvs db !! k) as [row|]; simpl; [|done].
  case_decide; [by rewrite option_guard_True|by rewrite option_guard_False].
Qed.

Lemma cleanExpiredCache_round_live now db k row :
  cache_kvs db !! k = Some row → now < CacheKV.ExpireTime row →
  cache_kvs (cleanExpiredCache_round now db) !! k = Some row.
Proof.
  intros Hrow Hlive. destruct (fault db) as [msg|] eqn:Hf.
  - unfold cleanExpiredCache_round, gorm.Exec. by rewrite Hf.
  - rewrite cleanExpiredCache_round_lookup, Hrow by done. by rewrite decide_True.
Qed.
End scalar_claims.

Section scalar_theorems.
Implicit Types (db : DB) (k : string) (v : string).

(** C3.  After [Set(k, v, ttl)] with [ttl > 0] at the instant [t0], in any
    later state [db'] of the store that still holds the row this call
    wrote (the key was not written again or deleted, and the reaper has
    not removed the row), [GetString(k)] at an instant [t1] returns [v]
    when [ttl] has not elapsed ([t1 < t0 + ttl]) and fails with
    [ErrNotFound] when it has ([t0 + ttl <= t1]). *)
Theorem Set_then_GetString_within_ttl db db' k v (ttl : Duration) (t0 t1 : Time) :
  fault db = None → fault db' = None →
  0 < ttl → t0 <= t1 →
  cache_kvs db' !! k = cache_kvs (Client_Set t0 k (any_string v) ttl db).2 !! k →
  (Client_Set t0 k (any_string v) ttl db).1 = None
  ∧ (t1 < t0 + ttl → Client_GetString t1 k db' = (v, None))
  ∧ (t0 + ttl <= t1 → Client_GetString t1 k db' = ("", Some ErrNotFound)).
Proof.
  intros Hf Hf' Httl Ht Hsame.
  destruct (Client_Set_row t0 k (any_string v) ttl db Hf)
    as (Herr & _ & row & Hrow & Hval & Hexp).
  rewrite Hrow in Hsame. split; [done|]. split; intros Hlt.
  - rewrite (Client_GetString_live t1 k db' row) by (done || lia).
    by rewrite Hval; simpl; rewrite string_of_list_byte_of_string.
  - apply (Client_GetString_expired t1 k db' row); (done || lia).
Qed.

Lemma Set_then_GetString_within_ttl_witness :
  Client_GetString 12 "session"
    (cleanExpiredCache_round 11
       (Client_Set 10 "session" (any_string "alice") 5 empty_DB).2)
  = ("alice", None).
Proof.
  refine (proj1 (proj2 (Set_then_GetString_within_ttl
            empty_DB _ "session" "alice" 5 10 12 _ _ _ _ _)) _);
    (reflexivity || lia).
Defined.

(** C2, as the code has it.  [Set] adds its [ttl] to the instant of the
    call; with [ttl = 0] the expiry written is that very instant.  In any
    later state [db'] of the store in which the key was not written again
    (its row is the one this call wrote, or the reaper has removed it),
    [GetString(k)] at any instant from the call on fails with
    [ErrNotFound]: the entry is never readable. *)
Theorem Set_zero_ttl_then_GetString db db' k (value : any) (t0 t1 : Time) :
  fault db = None → fault db' = None → t0 <= t1 →
  cache_kvs db' !! k = cache_kvs (Client_Set t0 k value 0 db).2 !! k
  ∨ cache_kvs db' !! k = None →
  (Client_Set t0 k value 0 db).1 = None
  ∧ Client_GetString t1 k db' = ("", Some ErrNotFound).
Proof.
  intros Hf Hf' Ht Hsame.
  destruct (Client_Set_row t0 k value 0 db Hf) as (Herr & _ & row & Hrow & _ & Hexp).
  split; [done|]. destruct Hsame as [Hsame|Hgone].
  - rewrite Hrow in Hsame.
    apply (Client_GetString_expired t1 k db' row); (done || lia).
  - by apply Client_GetString_absent.
Qed.

Lemma Set_zero_ttl_then_GetString_witness :
  Client_GetString 100 "token" (Client_Set 100 "token" (any_string "abc") 0 empty_DB).2
  = ("", Some ErrNotFound).
Proof.
  refine (proj2 (Set_zero_ttl_then_GetString
            empty_DB _ "token" (any_string "abc") 100 100 _ _ _ _));
    [reflexivity|reflexivity|lia|left; reflexivity].
Defined.

(** What [SetNX] does on a store that answers. *)
Lemma Client_SetNX_absent now k (value : any) (expire : Duration) db :
  fault db = None → cache_kvs db !! k = None →
  Client_SetNX now k value expire db =
    ((true, None),
     with_kvs db (<[k := CacheKV.mk (toBytes value) (now + expire) now now]>
                    (cache_kvs db))).
Proof.
  intros Hf Hk. unfold Client_SetNX, gorm.Exec, insert_ignore_kv, Time_Add.
  by rewrite Hf, Hk.
Qed.

Lemma Client_SetNX_conflict now k (value : any) (expire : Duration) db row :
  fault db = None → cache_kvs db !! k = Some row →
  Client_SetNX now k value expire db = ((false, None), db).
Proof.
  intros Hf Hk. unfold Client_SetNX, gorm.Exec, insert_ignore_kv.
  by rewrite Hf, Hk.
Qed.

(** C4.  On a store that answers: [SetNX] returns [true] exactly when no
    row had the key, and then the table has one row more, the one
    inserted; when a row had the key, expired or not, it returns [false]
    and the store is left as it was, expiry included.  Hence
    [SetNX(k, v1, ttl)] on a key without a row, followed by
    [SetNX(k, v2, ttl)], returns [true] then [false], and [GetString(k)]
    returns [v1] for as long as the first [ttl] has not elapsed. *)
Theorem SetNX_twice db k v1 (v2 : any) (ttl : Duration) (t0 t1 t2 : Time) :
  fault db = None →
  cache_kvs db !! k = None →
  t0 <= t1 → t1 <= t2 → t2 < t0 + ttl →
  let first := Client_SetNX t0 k (any_string v1) ttl db in
  let second := Client_SetNX t1 k v2 ttl first.2 in
  first.1 = (true, None)
  ∧ second.1 = (false, None)
  ∧ second.2 = first.2
  ∧ Client_GetString t2 k second.2 = (v1, None)
  ∧ (∀ db0 k0 (v0 : any) ttl0 now,
       fault db0 = None →
       let r := Client_SetNX now k0 v0 ttl0 db0 in
       r.1.2 = None
       ∧ (r.1.1 = true ↔ cache_kvs db0 !! k0 = None)
       ∧ (r.1.1 = true →
            size (cache_kvs r.2) = Datatypes.S (size (cache_kvs db0))
            ∧ cache_kvs r.2 !! k0
              = Some (CacheKV.mk (toBytes v0) (now + ttl0) now now))
       ∧ (r.1.1 = false → r.2 = db0)).
Proof.
  intros Hf Hk H01 H12 Hlive first second.
  assert (Hfirst : first = ((true, None),
            with_kvs db (<[k := CacheKV.mk (toBytes (any_string v1)) (t0 + ttl) t0 t0]>
                           (cache_kvs db))))
    by (by apply Client_SetNX_absent).
  assert (Hrow : cache_kvs first.2 !! k
                 = Some (CacheKV.mk (toBytes (any_string v1)) (t0 + ttl) t0 t0))
    by (rewrite Hfirst; simpl; apply lookup_insert_eq).
  assert (Hf1 : fault first.2 = None) by (by rewrite Hfirst).
  assert (Hsecond : second = ((false, None), first.2))
    by (by eapply Client_SetNX_conflict).
  rewrite Hsecond. simpl. split_and!; try done.
  - by rewrite Hfirst.
  - erewrite Client_GetString_live; [|done|exact Hrow|simpl; lia].
    simpl. by rewrite string_of_list_byte_of_string.
  - clear. intros db0 k0 v0 ttl0 now Hf0.
    destruct (cache_kvs db0 !! k0) as [row|] eqn:Hk0.
    + rewrite (Client_SetNX_conflict now k0 v0 ttl0 db0 row) by done.
      simpl. split_and!; done.
    + rewrite (Client_SetNX_absent now k0 v0 ttl0 db0) by done.
      simpl. split_and!; try done.
      intros _. split; [by apply map_size_insert_None|apply lookup_insert_eq].
Qed.

Lemma SetNX_twice_witness :
  (Client_SetNX 7 "lock" (any_string "owner-a") 30 empty_DB).1 = (true, None)
  ∧ Client_GetString 20 "lock"
      (Client_SetNX 9 "lock" (any_string "owner-b") 30
         (Client_SetNX 7 "lock" (any_string "owner-a") 30 empty_DB).2).2
    = ("owner-a", None).
Proof.
  pose proof (SetNX_twice empty_DB "lock" "owner-a" (any_string "owner-b") 30 7 9 20
                eq_refl eq_refl ltac:(lia) ltac:(lia) ltac:(lia)) as H.
  simpl in H. destruct H as (H1 & _ & _ & H4 & _). split; [exact H1|exact H4].
Defined.
End scalar_theorems.

Section scalar_theorems_2.
Implicit Types (db : DB) (k : string).

(** C10.  A row whose expiry has passed but which the reaper has not
    deleted: [GetString] fails with [ErrNotFound]; [Expire(k, ttl)] with
    [ttl > 0] returns [true], whichever way the driver counts the rows
    of an UPDATE; and from then until the new [ttl] elapses [GetString]
    returns the value the row held, the one it returned before the
    expiry. *)
Theorem Expire_resurrects_expired_row db k row (ttl : Duration) (t0 t1 : Time) :
  fault db = None →
  cache_kvs db !! k = Some row →
  CacheKV.ExpireTime row <= t0 →
  0 < ttl → t0 <= t1 → t1 < t0 + ttl →
  let value := string_of_list_byte (CacheKV.CacheValue row) in
  (∀ t, t < CacheKV.ExpireTime row → Client_GetString t k db = (value, None))
  ∧ Client_GetString t0 k db = ("", Some ErrNotFound)
  ∧ (Client_Expire t0 k ttl db).1 = (true, None)
  ∧ Client_GetString t1 k (Client_Expire t0 k ttl db).2 = (value, None).
Proof.
  intros Hf Hrow Hexp Httl H01 Hlive value. split_and!.
  - intros t Ht. by apply Client_GetString_live.
  - by eapply Client_GetString_expired.
  - unfold Client_Expire, gorm.Exec, update_expire_time, Time_Add.
    rewrite Hf, Hrow. simpl. f_equal. apply bool_decide_eq_true.
    destruct (clientFoundRows db); [lia|].
    rewrite decide_False; [lia|].
    intros Heq. apply (f_equal CacheKV.ExpireTime) in Heq. simpl in Heq. lia.
  - unfold Client_Expire, gorm.Exec, update_expire_time, Time_Add.
    rewrite Hf, Hrow. simpl.
    by rewrite (Client_GetString_live t1 k _
                  (CacheKV.mk (CacheKV.CacheValue row) (t0 + ttl)
                              (CacheKV.CreatedAt row) t0))
      by (done || apply lookup_insert_eq || (simpl; lia)).
Qed.

Lemma Expire_resurrects_expired_row_witness :
  let db := (Client_Set 0 "otp" (any_string "4711") 60 empty_DB).2 in
  Client_GetString 100 "otp" db = ("", Some ErrNotFound)
  ∧ (Client_Expire 100 "otp" 60 db).1 = (true, None)
  ∧ Client_GetString 120 "otp" (Client_Expire 100 "otp" 60 db).2 = ("4711", None).
Proof.
  intros db.
  pose proof (Expire_resurrects_expired_row db "otp"
                (CacheKV.mk (list_byte_of_string "4711") 60 0 0) 60 100 120
                eq_refl eq_refl ltac:(simpl; lia) ltac:(lia) ltac:(lia) ltac:(lia))
    as (_ & H1 & H2 & H3).
  exact (conj H1 (conj H2 H3)).
Defined.



End scalar_theorems_2.

(** ** The command adapter *)

(** C5.  Each list command of the adapter returns a command whose error is
    [ErrNotFound], whatever its arguments: [Err] and [Result] both report
    it, the functions are total and do not touch the store.  [Exec] on the
    pipeline the adapter returns reports [ErrNotFound] and no command. *)
Theorem list_commands_fail_with_ErrNotFound :
  (∀ key index,
     StringCmdAdapter_Err (CmdableAdapter_LIndex key index) = Some ErrNotFound
     ∧ (StringCmdAdapter_Result (CmdableAdapter_LIndex key index)).2 = Some ErrNotFound)
  ∧ (∀ key values,
       IntCmdAdapter_Err (CmdableAdapter_LPush key values) = Some ErrNotFound
       ∧ (IntCmdAdapter_Result (CmdableAdapter_LPush key values)).2 = Some ErrNotFound)
  ∧ (∀ key values,
       IntCmdAdapter_Err (CmdableAdapter_RPush key values) = Some ErrNotFound
       ∧ (IntCmdAdapter_Result (CmdableAdapter_RPush key values)).2 = Some ErrNotFound)
  ∧ (∀ key index value,
       StatusCmdAdapter_Err (CmdableAdapter_LSet key index value) = Some ErrNotFound
       ∧ (StatusCmdAdapter_Result (CmdableAdapter_LSet key index value)).2
         = Some ErrNotFound)
  ∧ (∀ key,
       StringCmdAdapter_Err (CmdableAdapter_LPop key) = Some ErrNotFound
       ∧ (StringCmdAdapter_Result (CmdableAdapter_LPop key)).2 = Some ErrNotFound)
  ∧ (∀ key start stop,
       StringSliceCmdAdapter_Err (CmdableAdapter_LRange key start stop) = Some ErrNotFound
       ∧ (StringSliceCmdAdapter_Result (CmdableAdapter_LRange key start stop)).2
         = Some ErrNotFound)
  ∧ PipelinerAdapter_Exec CmdableAdapter_Pipeline = ([], Some ErrNotFound)
  ∧ (∀ p, (PipelinerAdapter_Exec (PipelinerAdapter_Pipeline p)).2 = Some ErrNotFound).
Proof. split_and!; try done; by intros []. Qed.

Section HSet.
Context {S : Type} `{client : cache.Client S}.

Lemma HSet_loop_pairs now key values (s : S) :
  HSet_loop now key values s = SetMapField_each now key (string_pairs values) s.
Proof.
  revert s. induction values as [values IH] using (induction_ltof1 _ (@length any)).
  unfold ltof in IH. intros s.
  destruct values as [|f [|v rest]]; [done|by destruct f|].
  assert (Hrest : HSet_loop now key rest s
                  = SetMapField_each now key (string_pairs rest) s)
    by (apply IH; simpl; lia).
  destruct f as [|field| | | | |], v as [|value| | | | |]; simpl; try exact Hrest.
  destruct (cache.SetMapField now key field value s) as [[e|] s']; [done|].
  apply IH. simpl. lia.
Qed.
End HSet.

Lemma Client_SetMapField_healthy now key field value db :
  fault db = None →
  ∃ created,
    Client_SetMapField now key field value db
    = (None, with_maps db (<[(key, field) := CacheMap.mk value created now]>
                             (cache_maps db))).
Proof.
  intros Hf. unfold Client_SetMapField, gorm.Exec, upsert_map. rewrite Hf.
  destruct (cache_maps db !! (key, field)); simpl; eauto.
Qed.

Lemma SetMapField_each_oceanbase now key pairs db :
  fault db = None →
  let r := SetMapField_each now key pairs db in
  r.1 = None
  ∧ fault r.2 = None
  ∧ cache_kvs r.2 = cache_kvs db
  ∧ ∀ k field,
      CacheMap.CacheValue <$> cache_maps r.2 !! (k, field)
      = if decide (k = key)
        then last_value field pairs (CacheMap.CacheValue <$> cache_maps db !! (k, field))
        else CacheMap.CacheValue <$> cache_maps db !! (k, field).
Proof.
  revert db. induction pairs as [|[f v] rest IH]; intros db Hf; simpl.
  - split_and!; try done. intros k field. by case_decide.
  - destruct (Client_SetMapField_healthy now key f v db Hf) as [created ->].
    set (db1 := with_maps db _).
    destruct (IH db1 Hf) as (Herr & Hf' & Hkv & Hmaps).
    split_and!; try done.
    intros k field. rewrite Hmaps. case_decide as Hk; subst db1; simpl.
    + subst k. f_equal. case_decide as Hfield.
      * subst f. by rewrite lookup_insert_eq.
      * rewrite lookup_insert_ne; [done|congruence].
    + rewrite lookup_insert_ne; [done|congruence].
Qed.

(** C6, as the code has it.  [HSet] fails, with [ErrNotFound] and without
    calling the client, exactly when it is given fewer than two elements.
    Given two or more, on any client it calls [SetMapField] for each pair
    [(values[2i], values[2i+1])] of two strings, in order, up to the first
    error, which it returns; a pair with an element that is not a string,
    and the last element of a sequence of odd length, are passed over.  On
    a store that answers it then returns 1, and every field holds the value
    of the last pair that names it. *)
Theorem HSet_stores_string_pairs :
  (∀ (S : Type) (client : cache.Client S) now key values (s : S),
     let r := CmdableAdapter_HSet now key values s in
     ((length values < 2)%nat → r = (mkIntCmd 0 (Some ErrNotFound), s))
     ∧ ((2 <= length values)%nat →
          r.2 = (SetMapField_each now key (string_pairs values) s).2
          ∧ IntCmd_err r.1 = (SetMapField_each now key (string_pairs values) s).1
          ∧ (IntCmd_err r.1 = None → IntCmd_val r.1 = 1)))
  ∧ (∀ now key values db,
       fault db = None → (2 <= length values)%nat →
       let r := CmdableAdapter_HSet now key values db in
       r.1 = mkIntCmd 1 None
       ∧ ∀ field,
           CacheMap.CacheValue <$> cache_maps r.2 !! (key, field)
           = last_value field (string_pairs values)
               (CacheMap.CacheValue <$> cache_maps db !! (key, field))).
Proof.
  split.
  - intros S client now key values s r. subst r. unfold CmdableAdapter_HSet.
    split; intros Hlen.
    + rewrite decide_False by lia. done.
    + rewrite decide_True by lia. rewrite HSet_loop_pairs.
      destruct (SetMapField_each now key (string_pairs values) s) as [[e|] s']; done.
  - intros now key values db Hf Hlen r. subst r. unfold CmdableAdapter_HSet.
    rewrite decide_True by lia. rewrite HSet_loop_pairs.
    destruct (SetMapField_each_oceanbase now key (string_pairs values) db Hf)
      as (Herr & _ & _ & Hmaps).
    destruct (SetMapField_each now key (string_pairs values) db) as [err db'].
    simpl in *. subst err. split; [done|].
    intros field. rewrite Hmaps. by rewrite decide_True.
Qed.

Lemma HSet_stores_string_pairs_witness :
  let r := CmdableAdapter_HSet 3 "user:1"
             [any_string "name"; any_string "ann"; any_string "age"; any_string "41"]
             empty_DB in
  r.1 = mkIntCmd 1 None
  ∧ CacheMap.CacheValue <$> cache_maps r.2 !! ("user:1", "age") = Some "41".
Proof.
  intros r.
  pose proof (proj2 HSet_stores_string_pairs 3 "user:1"
                [any_string "name"; any_string "ann"; any_string "age"; any_string "41"]
                empty_DB eq_refl ltac:(simpl; lia)) as [H1 H2].
  split; [exact H1|exact (H2 "age")].
Defined.

(** C6 as it is worded fails: a sequence of odd length does not make the
    call fail, and a pair is not stored when one of its elements is not a
    string. *)
Lemma HSet_odd_length_succeeds :
  let odd := [any_string "name"; any_string "ann"; any_string "age"] in
  let mixed := [any_string "age"; any_int 41] in
  Nat.odd (length odd) = true
  ∧ (CmdableAdapter_HSet 3 "user:1" odd empty_DB).1 = mkIntCmd 1 None
  ∧ Nat.even (length mixed) = true
  ∧ (CmdableAdapter_HSet 3 "user:1" mixed empty_DB).1 = mkIntCmd 1 None
  ∧ cache_maps (CmdableAdapter_HSet 3 "user:1" mixed empty_DB).2 = ∅.
Proof. by vm_compute. Qed.

(** ** strconv: what [FormatInt] writes, [ParseInt] reads back *)

Section strconv_roundtrip.
Import strconv.

Lemma read_digits_ge d n : 0 <= n → n <= read_digits d n.
Proof.
  revert n. induction d as [|d IH|d IH|d IH|d IH|d IH|d IH|d IH|d IH|d IH|d IH];
    intros n Hn; simpl; [lia|..];
    (etransitivity; [|apply IH]; lia).
Qed.

Lemma read_digits_of_uint_acc d (acc : positive) :
  read_digits d (Z.pos acc) = Z.pos (Pos.of_uint_acc d acc).
Proof.
  revert acc. induction d as [|d IH|d IH|d IH|d IH|d IH|d IH|d IH|d IH|d IH|d IH];
    intros acc; simpl; [done|..];
    rewrite <- IH; f_equal; lia.
Qed.

Lemma read_digits_of_uint d : read_digits d 0 = Z.of_N (Pos.of_uint d).
Proof.
  induction d as [|d IH|d IH|d IH|d IH|d IH|d IH|d IH|d IH|d IH|d IH];
    simpl; [done|exact IH|..]; by rewrite <- read_digits_of_uint_acc.
Qed.

Lemma ParseUint_loop_digits d n :
  0 <= n → read_digits d n <= maxUint64 →
  ParseUint_loop (list_ascii_of_string (NilEmpty.string_of_uint d)) n
  = (read_digits d n, None).
Proof.
  assert (Hmax : maxUint64 = 18446744073709551615) by reflexivity.
  assert (Hcut : maxUint64 / 10 + 1 = 1844674407370955162) by reflexivity.
  revert n. induction d as [|d IH|d IH|d IH|d IH|d IH|d IH|d IH|d IH|d IH|d IH];
    intros n Hn Hfit; [done|..];
    cbn [NilEmpty.string_of_uint list_ascii_of_string ParseUint_loop read_digits] in *;
    (match goal with
     | H : read_digits d ?m <= _ |- _ =>
         pose proof (read_digits_ge d m ltac:(lia)) as Hge
     end);
    change (is_digit _) with true; cbn iota;
    rewrite Hcut; rewrite decide_False by lia;
    change (digit_value _) with 0 || change (digit_value _) with 1
    || change (digit_value _) with 2 || change (digit_value _) with 3
    || change (digit_value _) with 4 || change (digit_value _) with 5
    || change (digit_value _) with 6 || change (digit_value _) with 7
    || change (digit_value _) with 8 || change (digit_value _) with 9;
    unfold wrap_uint64; rewrite Z.mod_small by lia;
    rewrite decide_False by lia;
    rewrite <- IH by lia; f_equal; lia.
Qed.

Lemma to_uint_not_Nil p : Pos.to_uint p ≠ Decimal.Nil.
Proof.
  intros Hnil. pose proof (DecimalPos.Unsigned.of_to p) as H.
  rewrite Hnil in H. discriminate.
Qed.

Lemma ParseUint_to_uint p :
  Z.pos p <= maxUint64 →
  let s := NilZero.string_of_uint (Pos.to_uint p) in
  ParseUint s = (Z.pos p, None)
  ∧ ∃ c rest, s = String c rest ∧ c ≠ "+"%char ∧ c ≠ "-"%char.
Proof.
  intros Hp s.
  assert (Hs : s = NilEmpty.string_of_uint (Pos.to_uint p)).
  { subst s. pose proof (to_uint_not_Nil p). by destruct (Pos.to_uint p). }
  assert (Hval : read_digits (Pos.to_uint p) 0 = Z.pos p).
  { rewrite read_digits_of_uint, DecimalPos.Unsigned.of_to. done. }
  split.
  - unfold ParseUint. rewrite decide_False.
    + rewrite Hs, ParseUint_loop_digits by lia. by rewrite Hval.
    + rewrite Hs. pose proof (to_uint_not_Nil p). by destruct (Pos.to_uint p).
  - rewrite Hs. pose proof (to_uint_not_Nil p).
    destruct (Pos.to_uint p); [done|..]; simpl; eexists _, _; split_and!; done.
Qed.

(** [ParseInt(FormatInt(i, 10), 10, 64)] is [i], for every [int64]. *)
Lemma ParseInt_FormatInt (i : Z) :
  is_int64 i → ParseInt (FormatInt i) = (i, None).
Proof.
  unfold is_int64. intros Hi.
  assert (Hmax : maxUint64 = 18446744073709551615) by reflexivity.
  assert (H63 : 2 ^ 63 = 9223372036854775808) by reflexivity.
  destruct i as [|p|p].
  - done.
  - destruct (ParseUint_to_uint p ltac:(lia)) as (Hparse & c & rest & Hs & Hplus & Hminus).
    unfold FormatInt, ParseInt. cbn [Z.to_int NilZero.string_of_int].
    rewrite Hs in *. rewrite decide_False by tauto. rewrite Hparse.
    rewrite bool_decide_eq_false_2 by done.
    rewrite decide_False by lia. rewrite decide_False by (intros [? _]; done). done.
  - destruct (ParseUint_to_uint p ltac:(lia)) as (Hparse & _).
    unfold FormatInt, ParseInt. cbn [Z.to_int NilZero.string_of_int].
    rewrite decide_True by tauto. rewrite Hparse.
    rewrite bool_decide_eq_true_2 by done.
    rewrite decide_False by (intros [? _]; done).
    rewrite decide_False by lia. done.
Qed.

Lemma wrap_int64_is_int64 (z : Z) : is_int64 (wrap_int64 z).
Proof.
  unfold is_int64, wrap_int64.
  pose proof (Z.mod_pos_bound (z + 2 ^ 63) (2 ^ 64) ltac:(lia)). lia.
Qed.
End strconv_roundtrip.

(** ** The counter *)

Lemma Client_GetString_select now key db :
  fault db = None →
  Client_GetString now key db
  = match select_live_kv key now db with
    | Some row => (string_of_list_byte (CacheKV.CacheValue row), None)
    | None => ("", Some ErrNotFound)
    end.
Proof.
  intros Hf. unfold Client_GetString, Client_GetBytes, gorm.First. rewrite Hf.
  by destruct (select_live_kv key now db).
Qed.

Lemma CmdableAdapter_IncrBy_oceanbase db key (delta : Z) (now now' : Time) :
  fault db = None →
  let r := CmdableAdapter_IncrBy now now' key delta db in
  let write (current : Z) :=
    Client_Set now' key
      (any_string (strconv.FormatInt (wrap_int64 (current + delta)))) 0 db in
  match select_live_kv key now db with
  | None => r = (mkIntCmd (wrap_int64 (0 + delta)) None, (write 0).2)
  | Some row =>
      match strconv.ParseInt (string_of_list_byte (CacheKV.CacheValue row)) with
      | (current, None) =>
          r = (mkIntCmd (wrap_int64 (current + delta)) None, (write current).2)
      | (_, Some e) => r = (mkIntCmd 0 (Some e), db)
      end
  end.
Proof.
  intros Hf r write. subst r write.
  unfold CmdableAdapter_IncrBy, IncrBy_fn. simpl.
  unfold Client_Transaction. rewrite Hf.
  rewrite (Client_GetString_select now key db Hf).
  destruct (select_live_kv key now db) as [row|].
  - destruct (strconv.ParseInt _) as [current [e|]]; [done|].
    destruct (Client_Set_healthy now' key
                (any_string (strconv.FormatInt (wrap_int64 (current + delta)))) 0 db Hf)
      as [created ->]. done.
  - destruct (Client_Set_healthy now' key
                (any_string (strconv.FormatInt (wrap_int64 (0 + delta)))) 0 db Hf)
      as [created ->]. done.
Qed.

(** C1, as the code has it.  On a store that answers, [IncrBy(key, delta)]
    runs in one transaction: it reads the value of the key at the instant
    [now], taking 0 when no live row has the key; when the value read does
    not parse as an integer it returns the error of [ParseInt] and the
    store is as it was; otherwise it returns [current + delta], wrapped to
    an [int64], and the store is what [Set(key, FormatInt(current + delta),
    0)] at the instant [now'] makes of it: the row of the key holds a
    string that [ParseInt] reads back as the number returned, and its
    expiry is the one that [Set] writes. *)
Theorem IncrBy_reads_adds_writes db key (delta : Z) (now now' : Time) :
  fault db = None →
  let r := CmdableAdapter_IncrBy now now' key delta db in
  let result (current : Z) := wrap_int64 (current + delta) in
  let written (current : Z) :=
    r = (mkIntCmd (result current) None,
         (Client_Set now' key (any_string (strconv.FormatInt (result current))) 0 db).2)
    ∧ ∃ row, cache_kvs r.2 !! key = Some row
             ∧ strconv.ParseInt (string_of_list_byte (CacheKV.CacheValue row))
               = (result current, None) in
  match select_live_kv key now db with
  | None => written 0
  | Some row =>
      match strconv.ParseInt (string_of_list_byte (CacheKV.CacheValue row)) with
      | (current, None) => written current
      | (_, Some e) => r = (mkIntCmd 0 (Some e), db)
      end
  end.
Proof.
  intros Hf r result written.
  assert (Hwritten : ∀ current,
            r = (mkIntCmd (result current) None,
                 (Client_Set now' key
                    (any_string (strconv.FormatInt (result current))) 0 db).2)
            → written current).
  { intros current Hr. split; [done|]. rewrite Hr. simpl.
    destruct (Client_Set_row now' key
                (any_string (strconv.FormatInt (result current))) 0 db Hf)
      as (_ & _ & row & Hrow & Hval & _).
    exists row. split; [done|]. rewrite Hval. simpl.
    rewrite string_of_list_byte_of_string.
    apply ParseInt_FormatInt, wrap_int64_is_int64. }
  pose proof (CmdableAdapter_IncrBy_oceanbase db key delta now now' Hf) as Hr.
  simpl in Hr. fold r in Hr.
  destruct (select_live_kv key now db) as [row|].
  - destruct (strconv.ParseInt _) as [current [e|]]; [done|]. by apply Hwritten.
  - by apply Hwritten.
Qed.

Lemma IncrBy_reads_adds_writes_witness :
  let db := (Client_Set 0 "hits" (any_string "41") 1000 empty_DB).2 in
  CmdableAdapter_IncrBy 10 10 "hits" 1 db
  = (mkIntCmd 42 None, (Client_Set 10 "hits" (any_string "42") 0 db).2).
Proof.
  intros db.
  exact (proj1 (IncrBy_reads_adds_writes db "hits" 1 10 10 eq_refl)).
Defined.

(** C1 as it is worded fails on "no TTL change": the row had an expiry of
    1000 and has one of 10, the instant of the call, after [IncrBy]. *)
Lemma IncrBy_changes_expiry :
  let db := (Client_Set 0 "hits" (any_string "41") 1000 empty_DB).2 in
  let r := CmdableAdapter_IncrBy 10 10 "hits" 1 db in
  r.1 = mkIntCmd 42 None
  ∧ CacheKV.ExpireTime <$> cache_kvs db !! "hits" = Some 1000
  ∧ CacheKV.ExpireTime <$> cache_kvs r.2 !! "hits" = Some 10.
Proof. by vm_compute. Qed.

(** A value that is not an integer makes the call fail and leaves the
    store as it was. *)
Example IncrBy_not_an_integer :
  let db := (Client_Set 0 "hits" (any_string "many") 1000 empty_DB).2 in
  CmdableAdapter_IncrBy 10 10 "hits" 1 db
  = (mkIntCmd 0 (Some (NumError "ParseInt" "many" ErrSyntax)), db).
Proof. by vm_compute. Qed.

(** ** Paging through a map *)

Section scan.
Implicit Types (db : DB) (key field : string) (rows : list (string * CacheMap.t)).

Lemma elem_of_select_maps key pattern db field row :
  (field, row) ∈ select_maps key pattern db
  ↔ cache_maps db !! (key, field) = Some row
    ∧ match pattern with Some p => LIKE db field p = true | None => True end.
Proof.
  unfold select_maps. rewrite list_elem_of_omap. split.
  - intros ([[k f] r] & Hin & Hsel). apply elem_of_map_to_list in Hin.
    case_decide; [subst k|done].
    destruct pattern as [p|].
    + destruct (LIKE db f p) eqn:Hlike; [|done]. by simplify_eq.
    + by simplify_eq.
  - intros [Hrow Hlike]. exists (key, field, row). split.
    + by apply elem_of_map_to_list.
    + rewrite decide_True by done. destruct pattern; [by rewrite Hlike|done].
Qed.

Lemma NoDup_select_maps key pattern db : NoDup (select_maps key pattern db).*1.
Proof.
  unfold select_maps.
  pose proof (NoDup_fst_map_to_list (cache_maps db)) as Hnd.
  induction (map_to_list (cache_maps db)) as [|[[k f] r] l IH]; simpl.
  - constructor.
  - apply NoDup_cons in Hnd as [Hnotin Hnd]. specialize (IH Hnd).
    case_decide as Hk; [|done]. subst k.
    assert (Hf : f ∉ (omap (λ kfr : string * string * CacheMap.t,
                  let '(k, f0, row) := kfr in
                  if decide (k = key) then
                    match pattern with
                    | None => Some (f0, row)
                    | Some p => if LIKE db f0 p then Some (f0, row) else None
                    end
                  else None) l).*1).
    { intros Hin. apply Hnotin. simpl.
      apply list_elem_of_fmap in Hin as ([f' r'] & -> & Hin).
      apply list_elem_of_omap in Hin as ([[k0 f0] r0] & Hin & Hsel).
      apply list_elem_of_fmap. exists (k0, f0, r0). split; [|done].
      case_decide; [subst k0|done]. simpl.
      destruct pattern as [p|]; [destruct (LIKE db f0 p)|]; by simplify_eq. }
    destruct pattern as [p|]; [destruct (LIKE db f p)|]; simpl;
      try done; by apply NoDup_cons.
Qed.


Lemma int_of_uint64_small (u : Z) : 0 <= u < 2 ^ 63 → int_of_uint64 u = u.
Proof.
  intros Hu. unfold int_of_uint64, wrap_int64.
  rewrite Z.mod_small by lia. lia.
Qed.

(** One call, on a store that answers, with a cursor that is not negative
    as an [int]. *)
Lemma Client_ScanMapStream_page key (cursor : Z) match_ (count : Z) db :
  fault db = None → 1 <= count →
  let pattern :=
    if decide (match_ = "") then None else Some (convertRegexToSQL match_) in
  let rows := select_maps key pattern db in
  let page := take (Z.to_nat count) (drop (Z.to_nat cursor) rows) in
  0 <= cursor < 2 ^ 63 → Z.of_nat (length rows) < 2 ^ 63 →
  Client_ScanMapStream key cursor match_ count db
  = ((flatten_fields page,
      if decide (Z.of_nat (length page) < count) then 0
      else cursor + Z.of_nat (length page)), None).
Proof.
  intros Hf Hcount pattern rows page Hcur Hlen.
  unfold Client_ScanMapStream, gorm.Find. rewrite Hf. simpl.
  rewrite int_of_uint64_small by lia.
  unfold Limit, Offset. rewrite decide_False by lia.
  fold pattern. fold rows. fold page.
  do 2 f_equal. case_decide; [done|].
  unfold wrap_uint64. apply Z.mod_small.
  assert (length page <= length rows)%nat; [|lia].
  subst page. rewrite length_take, length_drop. lia.
Qed.



End scan.

(** ** Subscriptions *)

Section subscribe.
Implicit Types (db : DB) (s : subscription) (m msg : Message.t).

#[local] Instance Message_le_transitive : Transitive Message_le.
Proof. unfold Message_le. intros a b c. lia. Qed.

#[local] Instance Message_le_total : Total Message_le.
Proof. unfold Message_le. intros a b. lia. Qed.

(** A poll: messages of the channel, with an id above the cursor, in
    ascending order of id, ten at most. *)
Lemma select_messages_batch channel (last : Z) db :
  let batch := select_messages channel last db in
  Forall (λ m, m ∈ cache_messages db
               ∧ Message.Channel m = channel ∧ last < Message.ID m) batch
  ∧ StronglySorted Message_le batch
  ∧ (length batch <= 10)%nat.
Proof.
  unfold select_messages, Limit. simpl.
  set (found := filter _ (cache_messages db)).
  set (sorted := merge_sort Message_le found).
  assert (Hsorted : StronglySorted Message_le sorted)
    by (apply StronglySorted_merge_sort; apply _).
  split_and!.
  - apply Forall_take, Forall_forall. intros m Hm.
    assert (Hfound : m ∈ found)
      by (by rewrite <- (merge_sort_Permutation Message_le found)).
    apply list_elem_of_filter in Hfound. tauto.
  - rewrite <- (take_drop 10 sorted) in Hsorted.
    by apply StronglySorted_app_1_l in Hsorted.
  - rewrite length_take. lia.
Qed.

Lemma StronglySorted_snoc (l : list Message.t) (bound : Z) msg :
  StronglySorted Message_le l →
  Forall (λ m, Message.ID m <= bound) l → bound <= Message.ID msg →
  StronglySorted Message_le (l ++ [msg]).
Proof.
  intros Hl Hbound Hmsg. apply StronglySorted_app_2; [|done|].
  - intros x1 x2 Hx1 Hx2. apply list_elem_of_singleton in Hx2 as ->.
    rewrite Forall_forall in Hbound. specialize (Hbound x1 Hx1).
    unfold Message_le. lia.
  - repeat constructor.
Qed.

Lemma StronglySorted_lookup_le (l : list Message.t) (i j : nat) (mi mj : Message.t) :
  StronglySorted Message_le l → (i <= j)%nat →
  l !! i = Some mi → l !! j = Some mj → Message.ID mi <= Message.ID mj.
Proof.
  intros Hl. revert i j. induction Hl as [|a l Hl IH Ha]; intros i j Hij Hi Hj.
  - done.
  - destruct i as [|i], j as [|j]; simpl in *; try lia.
    + simplify_eq. done.
    + simplify_eq. rewrite Forall_forall in Ha.
      apply (Ha mj). by eapply list_elem_of_lookup_2.
    + apply (IH i j); (done || lia).
Qed.

Lemma cursor_handed_off_mono (id : Z) s s' :
  handed_off s ⊆ handed_off s' → cursor_handed_off id s → cursor_handed_off id s'.
Proof.
  intros Hsub [->|(m & Hm & <-)]; [by left|]. right. exists m. split; [auto|done].
Qed.

Lemma order_inv_attach now channel db :
  order_inv (Client_Subscribe now channel db).1.
Proof.
  unfold Client_Subscribe.
  destruct (gorm.Exec _ db) as [result db']. simpl. split; simpl.
  - constructor.
  - unfold pc_inv. simpl. constructor.
  - unfold ch_capacity. lia.
Qed.

Lemma cursor_inv_attach now channel db :
  fault db = None →
  cursor_inv (Client_Subscribe now channel db).2 (Client_Subscribe now channel db).1.
Proof.
  intros Hf. unfold Client_Subscribe, gorm.Exec, first_or_create_subscribe.
  rewrite Hf. simpl. split; simpl.
  - intros id. unfold persisted_cursor. simpl. rewrite lookup_insert_eq. simpl.
    intros [= <-]. by left.
  - by left.
Qed.

(** What a step does to everything handed off: a send appends the message
    sent, every other step leaves it as it is. *)
Lemma handed_off_step db s db' s' :
  step (db, s) (db', s') →
  handed_off s' = handed_off s
  ∨ ∃ msg rest, sub_pc s = Delivering (msg :: rest)
                ∧ sub_pc s' = Sent msg rest
                ∧ sub_LastMessageId s' = sub_LastMessageId s
                ∧ handed_off s' = (handed_off s ++ [msg])%list.
Proof.
  inversion 1 as
    [ db0 s0 Hwait | db0 s0 Hdel | db0 s0 msg rest Hdel Hroom
    | db0 s0 msg rest Hsent | now db0 s0 msg rest Hadv | db0 s0 Hstop
    | db0 s0 Hstop Hat | db0 s0 msg rest Hch | db0 db1 s0 Hrow ]; subst;
    try (by left).
  - left. unfold gorm.Find. by destruct (fault db').
  - right. exists msg, rest. split_and!; try done.
    unfold handed_off. simpl. by rewrite app_assoc.
  - left. unfold handed_off. simpl. rewrite Hch. by rewrite <- app_assoc.
Qed.

Lemma order_inv_step db s db' s' :
  step (db, s) (db', s') → order_inv s → order_inv s'.
Proof.
  intros Hstep [Hsorted Hpc Hcap].
  pose proof (handed_off_step _ _ _ _ Hstep) as Hhanded.
  inversion Hstep as
    [ db0 s0 Hwait | db0 s0 Hdel | db0 s0 msg rest Hdel Hroom
    | db0 s0 msg rest Hsent | now db0 s0 msg rest Hadv | db0 s0 Hstop
    | db0 s0 Hstop Hat | db0 s0 msg rest Hch | db0 db1 s0 Hrow ]; subst;
    unfold pc_inv in Hpc.
  - (* tick *)
    rewrite Hwait in Hpc. unfold gorm.Find.
    destruct (fault db') as [msg|]; simpl.
    + split; try done. unfold pc_inv. by rewrite Hwait.
    + destruct (select_messages_batch (sub_channel s) (sub_LastMessageId s) db')
        as (Hbatch & Hsort & _).
      split; try done. unfold pc_inv. simpl. split_and!; try done.
      eapply Forall_impl; [exact Hbatch|]. simpl. intros m (_ & _ & Hm). lia.
  - (* the batch is exhausted *)
    rewrite Hdel in Hpc. destruct Hpc as (Hle & _ & _).
    split; try done.
  - (* send *)
    rewrite Hdel in Hpc. destruct Hpc as (Hle & Hbatch & Hge).
    apply Forall_cons in Hge as [Hmsg Hge].
    destruct Hhanded as [Hsame|(msg' & rest' & Hpc' & _ & _ & Hnew)].
    { exfalso. apply (f_equal length) in Hsame. unfold handed_off in Hsame.
      simpl in Hsame. rewrite !length_app in Hsame. simpl in Hsame. lia. }
    rewrite Hdel in Hpc'. simplify_eq.
    split.
    + rewrite Hnew. by eapply StronglySorted_snoc.
    + unfold pc_inv. simpl. rewrite Hnew. split_and!; try done.
      * apply Forall_app. split.
        -- eapply Forall_impl; [exact Hle|]. simpl. intros m Hm. lia.
        -- repeat constructor. lia.
      * apply elem_of_app. right. by apply list_elem_of_singleton.
    + simpl. rewrite length_app. simpl. unfold ch_capacity in *. lia.
  - (* the cursor in memory advances *)
    rewrite Hsent in Hpc. destruct Hpc as (Hle & Hin & Hbatch).
    split; try done.
  - (* the cursor is persisted *)
    rewrite Hadv in Hpc. destruct Hpc as (Heq & Hle & Hin & Hbatch).
    apply StronglySorted_inv in Hbatch as [Hrest Hhead].
    split; try done.
    unfold pc_inv. simpl. split_and!; try done.
    eapply Forall_impl; [exact Hhead|]. unfold Message_le. simpl. intros m Hm. lia.
  - (* detach *)
    split; try done.
  - (* the goroutine returns *)
    split; try done.
    unfold pc_inv. simpl. destruct Hat as [Hw|(msg & rest & Hd)].
    + by rewrite Hw in Hpc.
    + rewrite Hd in Hpc. tauto.
  - (* the consumer receives *)
    destruct Hhanded as [Hsame|(msg' & rest' & Hd & Hpc' & _)];
      [|simpl in Hpc'; congruence].
    split.
    + by rewrite Hsame.
    + unfold pc_inv in *. simpl. rewrite Hsame. done.
    + simpl. rewrite Hch in Hcap. simpl in Hcap. lia.
  - (* another client writes *)
    split; done.
Qed.

Lemma cursor_inv_step db s db' s' :
  step (db, s) (db', s') → order_inv s → cursor_inv db s → cursor_inv db' s'.
Proof.
  intros Hstep [_ Hpc _] [Hpers Hlast].
  pose proof (handed_off_step _ _ _ _ Hstep) as Hhanded.
  assert (Hsub : handed_off s ⊆ handed_off s').
  { destruct Hhanded as [->|(msg & rest & _ & _ & _ & ->)]; [done|].
    intros m Hm. apply elem_of_app. by left. }
  unfold pc_inv in Hpc.
  inversion Hstep as
    [ db0 s0 Hwait | db0 s0 Hdel | db0 s0 msg rest Hdel Hroom
    | db0 s0 msg rest Hsent | now db0 s0 msg rest Hadv | db0 s0 Hstop
    | db0 s0 Hstop Hat | db0 s0 msg rest Hch | db0 db1 s0 Hrow ]; subst.
  - (* tick *)
    unfold gorm.Find in *. destruct (fault db'); by split.
  - by split.
  - (* send *)
    split.
    + intros id Hid. eapply cursor_handed_off_mono; [exact Hsub|by apply Hpers].
    + eapply cursor_handed_off_mono; [exact Hsub|exact Hlast].
  - (* the cursor in memory advances *)
    rewrite Hsent in Hpc. destruct Hpc as (_ & Hin & _).
    split; [done|]. right. by exists msg.
  - (* the cursor is persisted *)
    rewrite Hadv in Hpc. destruct Hpc as (_ & _ & Hin & _).
    split; [|done].
    intros id. unfold persisted_cursor, gorm.Exec, update_last_message_id. simpl.
    destruct (fault db) as [e|]; simpl; [by apply Hpers|].
    destruct (cache_message_subscribes db !! (sub_channel s, sub_subscriber s))
      as [old|] eqn:Hold; simpl.
    + rewrite lookup_insert_eq. simpl. intros [= <-]. right. by exists msg.
    + rewrite Hold. done.
  - by split.
  - (* the goroutine returns *)
    split; [|done].
    intros id. unfold persisted_cursor, gorm.Exec, delete_subscribe. simpl.
    destruct (fault db) as [e|]; simpl; [by apply Hpers|].
    destruct (cache_message_subscribes db !! (sub_channel s, sub_subscriber s))
      as [old|] eqn:Hold; simpl.
    + by rewrite lookup_delete_eq.
    + by rewrite Hold.
  - (* the consumer receives *)
    split.
    + intros id Hid. eapply cursor_handed_off_mono; [exact Hsub|by apply Hpers].
    + eapply cursor_handed_off_mono; [exact Hsub|exact Hlast].
  - (* another client writes *)
    split; [|done].
    intros id. unfold persisted_cursor. rewrite Hrow. apply Hpers.
Qed.

Lemma order_inv_reachable st st' :
  rtc step st st' → order_inv st.2 → order_inv st'.2.
Proof.
  induction 1 as [|[db s] [db' s'] st'' Hstep _ IH]; [done|].
  intros Hinv. apply IH. simpl in *. by eapply order_inv_step.
Qed.

Lemma cursor_inv_reachable st st' :
  rtc step st st' → order_inv st.2 → cursor_inv st.1 st.2 → cursor_inv st'.1 st'.2.
Proof.
  induction 1 as [|[db s] [db' s'] st'' Hstep _ IH]; [done|].
  intros Hord Hinv. apply IH; simpl in *.
  - by eapply order_inv_step.
  - by eapply cursor_inv_step.
Qed.
End subscribe.

(** C8.  A subscription, after any number of steps of its goroutine, of
    its consumer and of the other clients of the store (which may make the
    store fail or write any table, the row of this subscriber apart): the
    messages the consumer has received are in non-decreasing order of id,
    and so are all those handed to the channel; when the store answered
    the call that attached the subscription, the cursor the store holds
    and the cursor in memory are the initial -1 or the id of a message
    already handed to the channel; and a poll returns messages of the
    channel with an id above the cursor, in ascending order of id, ten at
    most. *)
Theorem Subscribe_delivers_in_id_order (now : Time) (channel : string)
    (db0 db : DB) (s : subscription) :
  rtc step ((Client_Subscribe now channel db0).2, (Client_Subscribe now channel db0).1)
           (db, s) →
  (∀ (i j : nat) (mi mj : Message.t),
     (i <= j)%nat → sub_received s !! i = Some mi → sub_received s !! j = Some mj →
     Message.ID mi <= Message.ID mj)
  ∧ StronglySorted Message_le (handed_off s)
  ∧ (fault db0 = None →
       (∀ id, persisted_cursor db s = Some id → cursor_handed_off id s)
       ∧ cursor_handed_off (sub_LastMessageId s) s)
  ∧ (∀ last db1,
       let batch := select_messages channel last db1 in
       Forall (λ m, m ∈ cache_messages db1
                    ∧ Message.Channel m = channel ∧ last < Message.ID m) batch
       ∧ StronglySorted Message_le batch
       ∧ (length batch <= 10)%nat).
Proof.
  intros Hrun.
  pose proof (order_inv_attach now channel db0) as Hord0.
  pose proof (order_inv_reachable _ _ Hrun Hord0) as [Hsorted Hpc Hcap].
  simpl in *. split_and!; try done.
  - intros i j mi mj Hij Hi Hj.
    apply (StronglySorted_lookup_le (sub_received s) i j); try done.
    by apply StronglySorted_app_1_l in Hsorted.
  - intros Hf.
    pose proof (cursor_inv_reachable _ _ Hrun Hord0 (cursor_inv_attach now channel db0 Hf))
      as [Hpers Hlast].
    done.
  - intros last db1. apply select_messages_batch.
Qed.

Lemma news_run :
  rtc step ((Client_Subscribe 5 "news" news_db).2, (Client_Subscribe 5 "news" news_db).1)
           (news_db_after, news_sub).
Proof.
  eapply rtc_l; [by apply step_tick|].
  eapply rtc_l; [eapply step_send; [reflexivity|vm_compute; lia]|].
  eapply rtc_l; [eapply step_advance; reflexivity|].
  eapply rtc_l; [eapply (step_persist 6); reflexivity|].
  eapply rtc_l; [eapply step_send; [reflexivity|vm_compute; lia]|].
  eapply rtc_l; [eapply step_advance; reflexivity|].
  eapply rtc_l; [eapply (step_persist 7); reflexivity|].
  eapply rtc_l; [eapply step_receive; reflexivity|].
  apply rtc_refl.
Defined.

Lemma Subscribe_delivers_in_id_order_witness :
  payloads (sub_received news_sub) = ["first"]
  ∧ StronglySorted Message_le (handed_off news_sub)
  ∧ cursor_handed_off (sub_LastMessageId news_sub) news_sub.
Proof.
  pose proof (Subscribe_delivers_in_id_order 5 "news" news_db news_db_after news_sub
                news_run) as (_ & H1 & H2 & _).
  split; [reflexivity|]. split; [exact H1|exact (proj2 (H2 eq_refl))].
Defined.

(** * Further properties of the client *)

(** ** Delete, Expire and the reaper *)

(** X1.  On a store that answers, [Delete(key)] reports 1 when a row had
    the key, expired or not, and 0 when none had, which is no error; from
    then on the key has no row, so that [GetString] fails with
    [ErrNotFound] at every instant and a second [Delete] reports 0; the
    rows of the other keys are as they were. *)
Theorem Delete_removes_the_row (db : DB) (key : string) :
  fault db = None →
  let r := Client_Delete key db in
  r.1 = (match cache_kvs db !! key with Some _ => 1 | None => 0 end, None)
  ∧ cache_kvs r.2 !! key = None
  ∧ (∀ k, k ≠ key → cache_kvs r.2 !! k = cache_kvs db !! k)
  ∧ (∀ t, Client_GetString t key r.2 = ("", Some ErrNotFound))
  ∧ Client_Delete key r.2 = ((0, None), r.2).
Proof.
  intros Hf r.
  assert (Hr : r = ((match cache_kvs db !! key with Some _ => 1 | None => 0 end, None),
                    with_kvs db (delete key (cache_kvs db)))).
  { subst r. unfold Client_Delete, gorm.Exec, delete_kv. rewrite Hf.
    destruct (cache_kvs db !! key) eqn:Hk; simpl; [done|].
    f_equal. destruct db; simpl in *. f_equal. by rewrite delete_id. }
  assert (Hgone : cache_kvs r.2 !! key = None)
    by (rewrite Hr; simpl; apply lookup_delete_eq).
  assert (Hf' : fault r.2 = None) by (by rewrite Hr).
  split_and!.
  - by rewrite Hr.
  - done.
  - intros k Hk. rewrite Hr. simpl. by rewrite lookup_delete_ne.
  - intros t. by apply Client_GetString_absent.
  - unfold Client_Delete, gorm.Exec, delete_kv. by rewrite Hf', Hgone.
Qed.

Lemma Delete_removes_the_row_witness :
  let db := (Client_Set 1 "a" (any_string "x") 0 empty_DB).2 in
  (Client_Delete "a" db).1 = (1, None)
  ∧ (Client_Delete "b" db).1 = (0, None).
Proof.
  intros db. split.
  - exact (proj1 (Delete_removes_the_row db "a" eq_refl)).
  - exact (proj1 (Delete_removes_the_row db "b" eq_refl)).
Defined.

(** What [Expire] does on a store that answers. *)
Lemma Client_Expire_present now key (expire : Duration) db row :
  fault db = None → cache_kvs db !! key = Some row →
  (Client_Expire now key expire db).2
  = with_kvs db (<[key := CacheKV.mk (CacheKV.CacheValue row) (now + expire)
                                      (CacheKV.CreatedAt row) now]> (cache_kvs db)).
Proof.
  intros Hf Hk. unfold Client_Expire, gorm.Exec, update_expire_time, Time_Add.
  by rewrite Hf, Hk.
Qed.

Lemma Client_Expire_absent now key (expire : Duration) db :
  fault db = None → cache_kvs db !! key = None →
  Client_Expire now key expire db = ((false, None), db).
Proof.
  intros Hf Hk. unfold Client_Expire, gorm.Exec, update_expire_time.
  by rewrite Hf, Hk.
Qed.

(** X2.  On a store that answers, [Expire(key, ttl)] on a key without a
    row returns [false] and changes nothing.  On a key with a row, live
    or not, it keeps the value and moves the expiry to the instant of the
    call plus [ttl]: from the call on, [GetString] returns the value of the
    row until that expiry and fails with [ErrNotFound] from it on, so that
    a [ttl] of 0 or less makes the key unreadable at once; the rows of the
    other keys are as they were. *)
Theorem Expire_moves_the_expiry (db : DB) (key : string) (ttl : Duration) (now : Time) :
  fault db = None →
  let r := Client_Expire now key ttl db in
  match cache_kvs db !! key with
  | None => r = ((false, None), db)
  | Some row =>
      r.1.2 = None
      ∧ (∀ t, now <= t → t < now + ttl →
           Client_GetString t key r.2
           = (string_of_list_byte (CacheKV.CacheValue row), None))
      ∧ (∀ t, now + ttl <= t →
           Client_GetString t key r.2 = ("", Some ErrNotFound))
  end
  ∧ (∀ k, k ≠ key → cache_kvs r.2 !! k = cache_kvs db !! k).
Proof.
  intros Hf r. split; [|intros k Hk; by apply Client_Expire_other].
  destruct (cache_kvs db !! key) as [row|] eqn:Hrow.
  - pose proof (Client_Expire_present now key ttl db row Hf Hrow) as Hr.
    fold r in Hr.
    assert (Hnew : cache_kvs r.2 !! key
                   = Some (CacheKV.mk (CacheKV.CacheValue row) (now + ttl)
                                      (CacheKV.CreatedAt row) now))
      by (rewrite Hr; simpl; apply lookup_insert_eq).
    assert (Hf' : fault r.2 = None) by (by rewrite Hr).
    split_and!.
    + subst r. unfold Client_Expire, gorm.Exec. rewrite Hf.
      by destruct (update_expire_time _ _ _ _).
    + intros t _ Ht. by rewrite (Client_GetString_live t key r.2 _ Hf' Hnew).
    + intros t Ht. by rewrite (Client_GetString_expired t key r.2 _ Hf' Hnew).
  - by apply Client_Expire_absent.
Qed.

Lemma Expire_moves_the_expiry_witness :
  let db := (Client_Set 1 "a" (any_string "x") 100 empty_DB).2 in
  Client_GetString 5 "a" db = ("x", None)
  ∧ Client_GetString 5 "a" (Client_Expire 5 "a" 0 db).2 = ("", Some ErrNotFound)
  ∧ Client_Expire 5 "b" 10 db = ((false, None), db).
Proof.
  intros db. split; [reflexivity|]. split.
  - pose proof (proj1 (Expire_moves_the_expiry db "a" 0 5 eq_refl)) as H.
    simpl in H. apply H. lia.
  - exact (proj1 (Expire_moves_the_expiry db "b" 10 5 eq_refl)).
Defined.

(** X3.  A round of the reaper at the instant [now] changes no answer: at
    every instant from [now] on, [GetBytes] and [Count] return what they
    returned without the round.  On a store that answers, the rows left
    are those that were live at [now], and the tables of the maps and of
    the messages are as they were. *)
Theorem cleanExpiredCache_round_is_not_observed (db : DB) (now : Time) :
  let db' := cleanExpiredCache_round now db in
  (∀ t key, now <= t → Client_GetBytes t key db' = Client_GetBytes t key db)
  ∧ (∀ t keys, now <= t → Client_Count t keys db' = Client_Count t keys db)
  ∧ (fault db = None →
       ∀ key, cache_kvs db' !! key
              = match cache_kvs db !! key with
                | Some row => if decide (now < CacheKV.ExpireTime row)
                              then Some row else None
                | None => None
                end)
  ∧ cache_maps db' = cache_maps db
  ∧ cache_messages db' = cache_messages db.
Proof.
  intros db'. destruct (fault db) as [msg|] eqn:Hf.
  - assert (Hsame : db' = db)
      by (subst db'; unfold cleanExpiredCache_round, gorm.Exec; by rewrite Hf).
    rewrite Hsame. split_and!; done.
  - assert (Hlookup := cleanExpiredCache_round_lookup now db).
    assert (Hf' : fault db' = None)
      by (subst db'; unfold cleanExpiredCache_round, gorm.Exec; by rewrite Hf).
    split_and!.
    + intros t key Ht. unfold Client_GetBytes, gorm.First, select_live_kv.
      rewrite Hf, Hf'. fold db'. subst db'. rewrite (Hlookup key Hf).
      destruct (cache_kvs db !! key) as [row|]; [|done].
      destruct (decide (now < CacheKV.ExpireTime row)); [done|].
      rewrite decide_False by lia. done.
    + intros t keys Ht. unfold Client_Count, gorm.Count, count_live_kv.
      rewrite Hf, Hf'. do 3 f_equal.
      subst db'. unfold cleanExpiredCache_round, gorm.Exec, delete_expired_kv.
      rewrite Hf. simpl. rewrite map_filter_filter. apply map_filter_ext.
      intros k row _. simpl. split; [tauto|]. intros [Hlive Hin].
      split_and!; [done|done|lia].
    + intros _ key. by apply Hlookup.
    + subst db'. unfold cleanExpiredCache_round, gorm.Exec, delete_expired_kv.
      by rewrite Hf.
    + subst db'. unfold cleanExpiredCache_round, gorm.Exec, delete_expired_kv.
      by rewrite Hf.
Qed.

(** X4.  A key whose row has expired cannot be taken with [SetNX] until
    the reaper has run: before, [SetNX] returns [false] and the value of
    the expired row stays; after a round of the reaper at an instant at or
    after the expiry, [SetNX] returns [true] and the key reads as the new
    value until the new expiry. *)
Theorem SetNX_after_expiry_needs_the_reaper (db : DB) (key v : string)
    (row : CacheKV.t) (ttl : Duration) (reaped now t : Time) :
  fault db = None →
  cache_kvs db !! key = Some row →
  CacheKV.ExpireTime row <= reaped →
  now <= t → t < now + ttl →
  Client_SetNX now key (any_string v) ttl db = ((false, None), db)
  ∧ let r := Client_SetNX now key (any_string v) ttl (cleanExpiredCache_round reaped db) in
    r.1 = (true, None) ∧ Client_GetString t key r.2 = (v, None).
Proof.
  intros Hf Hrow Hexp Hnow Ht. split; [by eapply Client_SetNX_conflict|].
  set (db' := cleanExpiredCache_round reaped db).
  assert (Hf' : fault db' = None)
    by (subst db'; unfold cleanExpiredCache_round, gorm.Exec; by rewrite Hf).
  assert (Hgone : cache_kvs db' !! key = None).
  { subst db'. rewrite cleanExpiredCache_round_lookup, Hrow by done.
    by rewrite decide_False by lia. }
  simpl. rewrite (Client_SetNX_absent now key (any_string v) ttl db' Hf' Hgone).
  simpl. split; [done|].
  erewrite Client_GetString_live; [|done|apply lookup_insert_eq|simpl; lia].
  simpl. by rewrite string_of_list_byte_of_string.
Qed.

Lemma SetNX_after_expiry_needs_the_reaper_witness :
  let db := (Client_SetNX 0 "lock" (any_string "a") 10 empty_DB).2 in
  Client_SetNX 20 "lock" (any_string "b") 10 db = ((false, None), db)
  ∧ (Client_SetNX 20 "lock" (any_string "b") 10 (cleanExpiredCache_round 15 db)).1
    = (true, None).
Proof.
  intros db.
  pose proof (SetNX_after_expiry_needs_the_reaper db "lock" "b"
                (CacheKV.mk (list_byte_of_string "a") 10 0 0) 10 15 20 25
                eq_refl eq_refl ltac:(simpl; lia) ltac:(lia) ltac:(lia)) as [H1 H2].
  simpl in H2. exact (conj H1 (proj1 H2)).
Defined.

(** ** Counting *)

Lemma Client_GetBytes_ok_iff now key db :
  fault db = None →
  (Client_GetBytes now key db).2 = None
  ↔ ∃ row, cache_kvs db !! key = Some row ∧ now < CacheKV.ExpireTime row.
Proof.
  intros Hf. unfold Client_GetBytes, gorm.First, select_live_kv. rewrite Hf.
  destruct (cache_kvs db !! key) as [row|]; simpl.
  - case_decide; simpl; split; try done.
    + intros _. by exists row.
    + intros (row' & [= <-] & Hlive). lia.
  - split; [done|]. by intros (row & ? & _).
Qed.

Lemma size_filter_keys (m : gmap string CacheKV.t) (now : Time) (keys : list string) :
  NoDup keys →
  size (filter (λ kr : string * CacheKV.t,
                  now < CacheKV.ExpireTime kr.2 ∧ kr.1 ∈ keys) m)
  = length (filter (live_row now m) keys).
Proof.
  induction 1 as [|k0 keys Hnotin Hnd IH].
  - simpl. apply map_size_empty_iff, map_empty_filter.
    intros k row _ [_ Hin]. simpl in Hin. by apply not_elem_of_nil in Hin.
  - rewrite filter_cons.
    set (rest := filter (λ kr : string * CacheKV.t,
                   now < CacheKV.ExpireTime kr.2 ∧ kr.1 ∈ keys) m) in *.
    assert (Hrest : rest !! k0 = None).
    { subst rest. apply map_lookup_filter_None. right. intros row _ [_ Hin]. done. }
    destruct (decide (live_row now m k0)) as [(row & Hrow & Hlive)|Hdead].
    + simpl. rewrite <- IH, <- (map_size_insert_None k0 row rest) by done.
      f_equal. apply map_eq. intros k. apply option_eq. intros r.
      rewrite map_lookup_filter_Some. simpl.
      destruct (decide (k = k0)) as [->|Hne].
      * rewrite lookup_insert_eq. split.
        -- intros [Hm _]. congruence.
        -- intros [= <-]. split_and!; [done|done|]. apply list_elem_of_here.
      * rewrite lookup_insert_ne by done. subst rest.
        rewrite map_lookup_filter_Some. simpl.
        rewrite elem_of_cons. split.
        -- intros (Hm & Hlive' & [?|Hin]); [done|tauto].
        -- intros (Hm & Hlive' & Hin). tauto.
    + rewrite <- IH. f_equal. apply map_eq. intros k. apply option_eq. intros r.
      subst rest. rewrite !map_lookup_filter_Some. simpl.
      rewrite elem_of_cons. split; [|tauto].
      intros (Hm & Hlive & [->|Hin]); [|done].
      exfalso. apply Hdead. by exists r.
Qed.

(** X5.  On a store that answers, [Count] of a list of keys that is not
    empty is the number of distinct keys of the list on which [GetBytes]
    succeeds at that instant: a key named twice counts once, and a key
    whose row has expired does not count.  [Count] of no key is the number
    of rows a round of the reaper at that instant would leave. *)
Theorem Count_counts_live_keys_once (db : DB) (now : Time) (keys : list string) :
  fault db = None →
  (keys ≠ [] →
     Client_Count now keys db
     = (Z.of_nat (length (filter (λ k, (Client_GetBytes now k db).2 = None)
                                 (remove_dups keys))), None))
  ∧ Client_Count now [] db
    = (Z.of_nat (size (cache_kvs (cleanExpiredCache_round now db))), None).
Proof.
  intros Hf. split.
  - intros Hkeys. unfold Client_Count, gorm.Count, count_live_kv. rewrite Hf. simpl.
    do 2 f_equal.
    rewrite (list_filter_iff _ (live_row now (cache_kvs db)))
      by (intros k; by apply Client_GetBytes_ok_iff).
    rewrite <- (size_filter_keys (cache_kvs db) now (remove_dups keys))
      by apply NoDup_remove_dups.
    f_equal. apply map_filter_ext. intros k row _. simpl.
    rewrite elem_of_remove_dups. split; [|tauto].
    intros [Hlive [?|Hin]]; done.
  - unfold Client_Count, gorm.Count, count_live_kv, cleanExpiredCache_round,
      gorm.Exec, delete_expired_kv. rewrite Hf. simpl.
    do 3 f_equal. apply map_filter_ext. intros k row _. simpl. tauto.
Qed.

Lemma Count_counts_live_keys_once_witness :
  let db := (Client_Set 1 "b" (any_string "y") 3
               (Client_Set 1 "a" (any_string "x") 100 empty_DB).2).2 in
  Client_Count 5 ["a"; "a"; "b"; "c"] db = (1, None).
Proof.
  intros db.
  exact (proj1 (Count_counts_live_keys_once db 5 ["a"; "a"; "b"; "c"] eq_refl)
               ltac:(discriminate)).
Defined.

(** ** Maps *)

Lemma Client_GetMapField_lookup key field db :
  fault db = None →
  Client_GetMapField key field db
  = match cache_maps db !! (key, field) with
    | Some row => (CacheMap.CacheValue row, None)
    | None => ("", Some ErrNotFound)
    end.
Proof.
  intros Hf. unfold Client_GetMapField, gorm.First. rewrite Hf.
  by destruct (cache_maps db !! (key, field)).
Qed.

(** X6.  On a store that answers, [SetMapField(key, field, value)] returns
    no error, [GetMapField(key, field)] then returns [value], whatever the
    field held, and every other field of every map reads as before. *)
Theorem SetMapField_then_GetMapField (db : DB) (now : Time) (key field value : string) :
  fault db = None →
  let r := Client_SetMapField now key field value db in
  r.1 = None
  ∧ Client_GetMapField key field r.2 = (value, None)
  ∧ (∀ k f, (k, f) ≠ (key, field) →
       Client_GetMapField k f r.2 = Client_GetMapField k f db)
  ∧ cache_kvs r.2 = cache_kvs db.
Proof.
  intros Hf r. subst r.
  destruct (Client_SetMapField_healthy now key field value db Hf) as [created ->].
  simpl. split_and!; try done.
  - rewrite Client_GetMapField_lookup by done. simpl. by rewrite lookup_insert_eq.
  - intros k f Hne. rewrite !Client_GetMapField_lookup by done. simpl.
    by rewrite lookup_insert_ne.
Qed.

Lemma SetMapField_then_GetMapField_witness :
  Client_GetMapField "u" "name"
    (Client_SetMapField 2 "u" "name" "bob"
       (Client_SetMapField 1 "u" "name" "ann" empty_DB).2).2
  = ("bob", None).
Proof.
  refine (proj1 (proj2 (SetMapField_then_GetMapField _ 2 "u" "name" "bob" _))).
  reflexivity.
Defined.

(** X7.  On a store that answers, [DeleteMapField(key, field)] returns no
    error whether or not the field exists, and leaves the store as it was
    when it does not; [GetMapField(key, field)] then fails with
    [ErrNotFound], and every other field of every map reads as before. *)
Theorem DeleteMapField_then_GetMapField (db : DB) (key field : string) :
  fault db = None →
  let r := Client_DeleteMapField key field db in
  r.1 = None
  ∧ Client_GetMapField key field r.2 = ("", Some ErrNotFound)
  ∧ (∀ k f, (k, f) ≠ (key, field) →
       Client_GetMapField k f r.2 = Client_GetMapField k f db)
  ∧ (cache_maps db !! (key, field) = None → r.2 = db).
Proof.
  intros Hf r. subst r. unfold Client_DeleteMapField, gorm.Exec, delete_map_field.
  rewrite Hf. destruct (cache_maps db !! (key, field)) as [row|] eqn:Hrow; simpl.
  - split_and!; try done.
    + rewrite Client_GetMapField_lookup by done. simpl. by rewrite lookup_delete_eq.
    + intros k f Hne. rewrite !Client_GetMapField_lookup by done. simpl.
      by rewrite lookup_delete_ne.
  - split_and!; try done.
    rewrite Client_GetMapField_lookup by done. by rewrite Hrow.
Qed.

Lemma DeleteMapField_then_GetMapField_witness :
  Client_GetMapField "u" "name"
    (Client_DeleteMapField "u" "name"
       (Client_SetMapField 1 "u" "name" "ann" empty_DB).2).2
  = ("", Some ErrNotFound).
Proof.
  refine (proj1 (proj2 (DeleteMapField_then_GetMapField _ "u" "name" _))).
  reflexivity.
Defined.

Lemma foldl_insert_fields_lookup (rows : list (string * CacheMap.t))
    (m : gmap string string) (field value : string) :
  NoDup rows.*1 →
  (foldl (λ (m : gmap string string) (fr : string * CacheMap.t),
            <[fr.1 := CacheMap.CacheValue fr.2]> m) m rows) !! field = Some value
  ↔ (∃ row, (field, row) ∈ rows ∧ CacheMap.CacheValue row = value)
    ∨ ((field ∉ rows.*1) ∧ m !! field = Some value).
Proof.
  revert m. induction rows as [|[f0 r0] rows IH]; intros m Hnd; simpl.
  - split; [intros Hm; right; split; [apply not_elem_of_nil|done]|].
    intros [(row & Hin & _)|[_ Hm]]; [by apply not_elem_of_nil in Hin|done].
  - apply NoDup_cons in Hnd as [Hnotin Hnd]. rewrite (IH _ Hnd). clear IH.
    split.
    + intros [(row & Hin & Hval)|[Hfield Hm]].
      * left. exists row. split; [by apply list_elem_of_further|done].
      * destruct (decide (f0 = field)) as [->|Hne].
        -- rewrite lookup_insert_eq in Hm. left. exists r0.
           split; [apply list_elem_of_here|congruence].
        -- rewrite lookup_insert_ne in Hm by done. right.
           split; [|done]. intros Hin.
           apply elem_of_cons in Hin as [?|?]; [congruence|done].
    + intros [(row & Hin & Hval)|[Hfield Hm]].
      * apply elem_of_cons in Hin as [Heq|Hin].
        -- inversion Heq; subst. right. split; [exact Hnotin|].
           by rewrite lookup_insert_eq.
        -- left. by exists row.
      * apply not_elem_of_cons in Hfield as [Hne Hfield]. right.
        split; [done|]. by rewrite lookup_insert_ne.
Qed.

Lemma Client_GetMap_lookup key db field value :
  fault db = None →
  (foldl (λ (m : gmap string string) (fr : string * CacheMap.t),
            <[fr.1 := CacheMap.CacheValue fr.2]> m) ∅ (select_maps key None db))
    !! field = Some value
  ↔ ∃ row, cache_maps db !! (key, field) = Some row ∧ CacheMap.CacheValue row = value.
Proof.
  intros Hf. rewrite foldl_insert_fields_lookup by apply NoDup_select_maps.
  split.
  - intros [(row & Hin & Hval)|[_ Hm]]; [|done].
    apply elem_of_select_maps in Hin as [Hrow _]. by exists row.
  - intros (row & Hrow & Hval). left. exists row. split; [|done].
    by apply elem_of_select_maps.
Qed.

(** X8.  On a store that answers, [GetMap(key)] and [GetMapField] agree:
    the map returned holds [value] at [field] exactly when
    [GetMapField(key, field)] returns [value]; and [GetMap] fails, with
    [ErrNotFound] and no other error, exactly when the key has no
    field. *)
Theorem GetMap_agrees_with_GetMapField (db : DB) (key : string) :
  fault db = None →
  let r := Client_GetMap key db in
  (∀ field value,
     r.1 !! field = Some value ↔ Client_GetMapField key field db = (value, None))
  ∧ (r.2 = Some ErrNotFound ↔ ∀ field, cache_maps db !! (key, field) = None)
  ∧ (r.2 = None ∨ r.2 = Some ErrNotFound).
Proof.
  intros Hf r. subst r. unfold Client_GetMap, gorm.Find. rewrite Hf. simpl.
  set (resultMap := foldl _ ∅ (select_maps key None db)).
  assert (Hlookup : ∀ field value,
            resultMap !! field = Some value
            ↔ ∃ row, cache_maps db !! (key, field) = Some row
                     ∧ CacheMap.CacheValue row = value)
    by (intros; by apply Client_GetMap_lookup).
  assert (Hfield : ∀ field value,
            Client_GetMapField key field db = (value, None)
            ↔ ∃ row, cache_maps db !! (key, field) = Some row
                     ∧ CacheMap.CacheValue row = value).
  { intros field value. rewrite Client_GetMapField_lookup by done.
    destruct (cache_maps db !! (key, field)) as [row|].
    - split; [intros [= <-]; by exists row|]. by intros (row' & [= <-] & ->).
    - split; [done|]. by intros (row & ? & _). }
  case_decide as Hsize.
  - apply map_size_empty_iff in Hsize. simpl. split_and!.
    + intros field value. rewrite Hfield, <- Hlookup, Hsize. done.
    + split; [|done]. intros _ field.
      destruct (cache_maps db !! (key, field)) as [row|] eqn:Hrow; [|done].
      assert (resultMap !! field = Some (CacheMap.CacheValue row))
        by (apply Hlookup; by exists row).
      rewrite Hsize in H. done.
    + by right.
  - simpl. split_and!.
    + intros field value. by rewrite Hfield, <- Hlookup.
    + split; [done|]. intros Hnone. exfalso. apply Hsize.
      apply map_size_empty_iff, map_eq. intros field.
      rewrite lookup_empty. apply eq_None_not_Some. intros [value Hv].
      apply Hlookup in Hv as (row & Hrow & _). by rewrite Hnone in Hrow.
    + by left.
Qed.

Lemma GetMap_agrees_with_GetMapField_witness :
  (Client_GetMap "u" (Client_SetMapField 1 "u" "name" "ann" empty_DB).2).1 !! "name"
  = Some "ann".
Proof.
  apply (proj1 (GetMap_agrees_with_GetMapField
                  (Client_SetMapField 1 "u" "name" "ann" empty_DB).2 "u" eq_refl)).
  reflexivity.
Defined.

(** * Further properties of the command adapter *)

Lemma wrap_int64_small (z : Z) : is_int64 z → wrap_int64 z = z.
Proof.
  unfold is_int64, wrap_int64. intros Hz. rewrite Z.mod_small by lia. lia.
Qed.

Lemma Client_Delete_healthy key db :
  fault db = None →
  ∃ deleted : Z,
    Client_Delete key db = ((deleted, None), with_kvs db (delete key (cache_kvs db)))
    ∧ 0 <= deleted <= 1
    ∧ deleted + Z.of_nat (size (delete key (cache_kvs db)))
      = Z.of_nat (size (cache_kvs db)).
Proof.
  intros Hf. unfold Client_Delete, gorm.Exec, delete_kv. rewrite Hf.
  destruct (cache_kvs db !! key) as [row|] eqn:Hrow; simpl.
  - exists 1. split_and!; try done; try lia.
    rewrite map_size_delete_Some by done.
    assert (size (cache_kvs db) ≠ 0%nat)
      by (by eapply (map_size_ne_0_lookup_2 _ key)).
    lia.
  - exists 0. split_and!; try lia.
    + do 2 f_equal. destruct db; simpl in *. f_equal. by rewrite delete_id.
    + by rewrite map_size_delete_None.
Qed.

Lemma Del_loop_oceanbase (keys : list string) (acc : Z) (db : DB) :
  fault db = None → 0 <= acc → acc + Z.of_nat (length keys) < 2 ^ 63 →
  let r := Del_loop keys acc db in
  IntCmd_err r.1 = None
  ∧ IntCmd_val r.1 + Z.of_nat (size (cache_kvs r.2)) = acc + Z.of_nat (size (cache_kvs db))
  ∧ (∀ k, cache_kvs r.2 !! k = if decide (k ∈ keys) then None else cache_kvs db !! k)
  ∧ cache_maps r.2 = cache_maps db.
Proof.
  revert acc db. induction keys as [|key keys IH]; intros acc db Hf Hacc Hfit; simpl.
  - split_and!; done.
  - destruct (Client_Delete_healthy key db Hf) as (deleted & -> & Hdel & Hsize).
    simpl in Hfit.
    rewrite wrap_int64_small by (unfold is_int64; lia).
    set (db1 := with_kvs db (delete key (cache_kvs db))).
    destruct (IH (acc + deleted) db1 Hf ltac:(lia) ltac:(lia))
      as (Herr & Hval & Hrows & Hmaps).
    split_and!; try done.
    + rewrite Hval. subst db1. simpl. lia.
    + intros k. rewrite Hrows. subst db1. simpl.
      destruct (decide (k = key)) as [->|Hne].
      * rewrite lookup_delete_eq. rewrite (decide_True (P := key ∈ key :: keys))
          by apply list_elem_of_here. by case_decide.
      * rewrite lookup_delete_ne by done.
        destruct (decide (k ∈ keys)) as [Hin|Hnotin].
        -- rewrite decide_True; [done|by apply list_elem_of_further].
        -- rewrite decide_False; [done|]. rewrite elem_of_cons. tauto.
Qed.

(** X9.  On a store that answers, [Del] of fewer than 2^63 keys returns no
    error and the number of rows it removed, a key named twice or without
    a row adding nothing; afterwards none of the keys has a row, the rows
    of the other keys are as they were, and so are the maps, the map
    stored under one of the keys included. *)
Theorem Del_removes_the_rows (db : DB) (keys : list string) :
  fault db = None → Z.of_nat (length keys) < 2 ^ 63 →
  let r := CmdableAdapter_Del keys db in
  IntCmd_err r.1 = None
  ∧ IntCmd_val r.1 = Z.of_nat (size (cache_kvs db)) - Z.of_nat (size (cache_kvs r.2))
  ∧ (∀ k, k ∈ keys → cache_kvs r.2 !! k = None)
  ∧ (∀ k, k ∉ keys → cache_kvs r.2 !! k = cache_kvs db !! k)
  ∧ cache_maps r.2 = cache_maps db.
Proof.
  intros Hf Hlen r. subst r. unfold CmdableAdapter_Del.
  destruct (Del_loop_oceanbase keys 0 db Hf ltac:(lia) ltac:(lia))
    as (Herr & Hval & Hrows & Hmaps).
  simpl in *. fold (@Del_loop DB oceanbase_Client) in *.
  split_and!; try done.
  - lia.
  - intros k Hk. rewrite Hrows. by rewrite decide_True.
  - intros k Hk. rewrite Hrows. by rewrite decide_False.
Qed.

Lemma Del_removes_the_rows_witness :
  let db := (Client_SetMapField 1 "a" "f" "v"
               (Client_Set 1 "a" (any_string "x") 100 empty_DB).2).2 in
  IntCmd_err (CmdableAdapter_Del ["a"; "a"; "b"] db).1 = None
  ∧ cache_kvs (CmdableAdapter_Del ["a"; "a"; "b"] db).2 !! "a" = None
  ∧ cache_maps (CmdableAdapter_Del ["a"; "a"; "b"] db).2 = cache_maps db.
Proof.
  intros db.
  pose proof (Del_removes_the_rows db ["a"; "a"; "b"] eq_refl ltac:(simpl; lia))
    as (H1 & _ & H3 & _ & H5).
  split; [exact H1|]. split; [|exact H5].
  apply H3. apply list_elem_of_here.
Defined.

(** ** Scalar commands and map commands *)

Lemma select_maps_None_ext key db db' :
  cache_maps db = cache_maps db' → select_maps key None db = select_maps key None db'.
Proof. intros Hmaps. unfold select_maps. by rewrite Hmaps. Qed.

Lemma Client_GetMap_ext key db db' :
  cache_maps db = cache_maps db' → fault db = fault db' →
  Client_GetMap key db = Client_GetMap key db'.
Proof.
  intros Hmaps Hf. unfold Client_GetMap, gorm.Find.
  by rewrite Hf, (select_maps_None_ext key db db' Hmaps).
Qed.

Lemma Client_Count_ext now keys db db' :
  cache_kvs db = cache_kvs db' → fault db = fault db' →
  Client_Count now keys db = Client_Count now keys db'.
Proof.
  intros Hkvs Hf. unfold Client_Count, gorm.Count, count_live_kv.
  by rewrite Hf, Hkvs.
Qed.

Lemma Client_GetString_ext now key db db' :
  cache_kvs db = cache_kvs db' → fault db = fault db' →
  Client_GetString now key db = Client_GetString now key db'.
Proof.
  intros Hkvs Hf. unfold Client_GetString, Client_GetBytes, gorm.First, select_live_kv.
  by rewrite Hf, Hkvs.
Qed.

Lemma Client_Delete_maps key db :
  cache_maps (Client_Delete key db).2 = cache_maps db
  ∧ fault (Client_Delete key db).2 = fault db.
Proof.
  unfold Client_Delete, gorm.Exec, delete_kv.
  destruct (fault db) eqn:Hf; simpl; [by rewrite Hf|].
  destruct (cache_kvs db !! key); simpl; by rewrite ?Hf.
Qed.

Lemma Del_loop_maps (keys : list string) (acc : Z) (db : DB) :
  cache_maps (Del_loop keys acc db).2 = cache_maps db
  ∧ fault (Del_loop keys acc db).2 = fault db.
Proof.
  revert acc db. induction keys as [|key keys IH]; intros acc db; simpl; [done|].
  destruct (Client_Delete_maps key db) as [Hmaps Hf].
  destruct (Client_Delete key db) as [[deleted [e|]] db1]; simpl in *; [done|].
  destruct (IH (wrap_int64 (acc + deleted)) db1) as [Hmaps' Hf'].
  split; congruence.
Qed.

Lemma Client_Expire_maps now key (expire : Duration) db :
  cache_maps (Client_Expire now key expire db).2 = cache_maps db
  ∧ fault (Client_Expire now key expire db).2 = fault db.
Proof.
  unfold Client_Expire, gorm.Exec, update_expire_time.
  destruct (fault db) eqn:Hf; simpl; [by rewrite Hf|].
  destruct (cache_kvs db !! key); simpl; by rewrite ?Hf.
Qed.

Lemma Client_SetMapField_kvs now key field value db :
  cache_kvs (Client_SetMapField now key field value db).2 = cache_kvs db
  ∧ fault (Client_SetMapField now key field value db).2 = fault db.
Proof.
  unfold Client_SetMapField, gorm.Exec, upsert_map.
  destruct (fault db) eqn:Hf; simpl; [by rewrite Hf|].
  destruct (cache_maps db !! (key, field)); simpl; by rewrite ?Hf.
Qed.

Lemma SetMapField_each_kvs now key pairs (db : DB) :
  cache_kvs (SetMapField_each now key pairs db).2 = cache_kvs db
  ∧ fault (SetMapField_each now key pairs db).2 = fault db.
Proof.
  revert db. induction pairs as [|[f v] pairs IH]; intros db; simpl; [done|].
  destruct (Client_SetMapField_kvs now key f v db) as [Hkvs Hf].
  destruct (Client_SetMapField now key f v db) as [[e|] db1]; simpl in *; [done|].
  destruct (IH db1) as [Hkvs' Hf']. split; congruence.
Qed.

Lemma CmdableAdapter_HSet_kvs now key values (db : DB) :
  cache_kvs (CmdableAdapter_HSet now key values db).2 = cache_kvs db
  ∧ fault (CmdableAdapter_HSet now key values db).2 = fault db.
Proof.
  unfold CmdableAdapter_HSet. case_decide as Hlen; [|done].
  rewrite HSet_loop_pairs.
  pose proof (SetMapField_each_kvs now key (string_pairs values) db) as Hkvs.
  by destruct (SetMapField_each now key (string_pairs values) db) as [[e|] db1].
Qed.

(** X10.  The commands on scalar keys and the commands on maps do not see
    each other, whatever the state of the store.  [Del] and [Expire] leave
    every map as it is, the map stored under the very key they are given
    included: [HGetAll] returns what it returned.  [HSet] leaves every
    scalar entry as it is: [Get] and [Exists] return what they returned,
    so that a key that only holds a map does not exist for [Exists]. *)
Theorem scalar_and_map_commands_are_apart (db : DB) :
  (∀ key keys,
     CmdableAdapter_HGetAll key (CmdableAdapter_Del keys db).2
     = CmdableAdapter_HGetAll key db)
  ∧ (∀ key now k ttl,
       CmdableAdapter_HGetAll key (CmdableAdapter_Expire now k ttl db).2
       = CmdableAdapter_HGetAll key db)
  ∧ (∀ now key values t keys,
       CmdableAdapter_Exists t keys (CmdableAdapter_HSet now key values db).2
       = CmdableAdapter_Exists t keys db)
  ∧ (∀ now key values t k,
       CmdableAdapter_Get t k (CmdableAdapter_HSet now key values db).2
       = CmdableAdapter_Get t k db).
Proof.
  split_and!.
  - intros key keys. unfold CmdableAdapter_HGetAll, CmdableAdapter_Del. simpl.
    destruct (Del_loop_maps keys 0 db) as [Hmaps Hf].
    by rewrite (Client_GetMap_ext key _ db Hmaps Hf).
  - intros key now k ttl. unfold CmdableAdapter_HGetAll, CmdableAdapter_Expire. simpl.
    destruct (Client_Expire_maps now k ttl db) as [Hmaps Hf].
    destruct (Client_Expire now k ttl db) as [[success err] db1]. simpl in *.
    by rewrite (Client_GetMap_ext key _ db Hmaps Hf).
  - intros now key values t keys. unfold CmdableAdapter_Exists. simpl.
    destruct (CmdableAdapter_HSet_kvs now key values db) as [Hkvs Hf].
    destruct keys; [done|].
    by rewrite (Client_Count_ext t _ _ db Hkvs Hf).
  - intros now key values t k. unfold CmdableAdapter_Get. simpl.
    destruct (CmdableAdapter_HSet_kvs now key values db) as [Hkvs Hf].
    by rewrite (Client_GetString_ext t k _ db Hkvs Hf).
Qed.

(** ** [HSet] then [HGetAll] *)

Lemma last_value_app field pairs1 pairs2 otherwise :
  last_value field (pairs1 ++ pairs2) otherwise
  = last_value field pairs2 (last_value field pairs1 otherwise).
Proof.
  revert otherwise. induction pairs1 as [|[f v] pairs1 IH]; intros otherwise; simpl;
    [done|apply IH].
Qed.

Lemma last_value_of_last_pair pairs :
  pairs ≠ [] →
  ∃ field value, ∀ otherwise, last_value field pairs otherwise = Some value.
Proof.
  destruct pairs as [|p pairs _] using rev_ind; [done|]. intros _.
  destruct p as [f v]. exists f, v. intros otherwise.
  rewrite last_value_app. simpl. by rewrite decide_True.
Qed.

Lemma Client_GetMap_val key db :
  fault db = None →
  (Client_GetMap key db).1
  = foldl (λ (m : gmap string string) (fr : string * CacheMap.t),
             <[fr.1 := CacheMap.CacheValue fr.2]> m) ∅ (select_maps key None db)
  ∧ ((Client_GetMap key db).2 = None ↔ (Client_GetMap key db).1 ≠ ∅).
Proof.
  intros Hf. unfold Client_GetMap, gorm.Find. rewrite Hf. simpl.
  set (resultMap := foldl _ ∅ (select_maps key None db)).
  case_decide as Hsize; simpl.
  - apply map_size_empty_iff in Hsize. split; [done|]. split; done.
  - split; [done|]. split; [|done]. intros _ Hempty. apply Hsize.
    by apply map_size_empty_iff.
Qed.

Lemma Client_GetMap_field key db field :
  fault db = None →
  (Client_GetMap key db).1 !! field
  = CacheMap.CacheValue <$> cache_maps db !! (key, field).
Proof.
  intros Hf. rewrite (proj1 (Client_GetMap_val key db Hf)).
  apply option_eq. intros value. rewrite Client_GetMap_lookup by done.
  destruct (cache_maps db !! (key, field)) as [row|]; simpl.
  - split; [by intros (row' & [= <-] & ->)|]. intros [= <-]. by exists row.
  - split; [by intros (row & ? & _)|done].
Qed.

(** X11.  On a store that answers, after [HSet] of two elements or more,
    [HGetAll] of the same key returns a map that holds, for each field,
    the value of the last pair of strings that names it, and what the
    field held before when no pair names it; it returns no error as soon
    as the sequence has one pair of strings. *)
Theorem HSet_then_HGetAll (db : DB) (now : Time) (key : string) (values : list any) :
  fault db = None → (2 <= length values)%nat →
  let all := CmdableAdapter_HGetAll key (CmdableAdapter_HSet now key values db).2 in
  (∀ field,
     MapCmd_val all !! field
     = last_value field (string_pairs values)
         (CacheMap.CacheValue <$> cache_maps db !! (key, field)))
  ∧ (string_pairs values ≠ [] → MapCmd_err all = None).
Proof.
  intros Hf Hlen all.
  set (db' := (CmdableAdapter_HSet now key values db).2) in *.
  assert (Hdb' : fault db' = None
                 ∧ ∀ field, CacheMap.CacheValue <$> cache_maps db' !! (key, field)
                            = last_value field (string_pairs values)
                                (CacheMap.CacheValue <$> cache_maps db !! (key, field))).
  { subst db'. unfold CmdableAdapter_HSet. rewrite decide_True by lia.
    rewrite HSet_loop_pairs.
    destruct (SetMapField_each_oceanbase now key (string_pairs values) db Hf)
      as (Herr & Hf' & _ & Hmaps).
    destruct (SetMapField_each now key (string_pairs values) db) as [err db1].
    simpl in *. subst err. split; [done|].
    intros field. rewrite Hmaps. by rewrite decide_True. }
  destruct Hdb' as [Hf' Hfields].
  assert (Hall : all = mkMapCmd (Client_GetMap key db').1 (Client_GetMap key db').2).
  { subst all. unfold CmdableAdapter_HGetAll. simpl.
    by destruct (Client_GetMap key db'). }
  rewrite Hall. simpl. split.
  - intros field. by rewrite Client_GetMap_field, Hfields.
  - intros Hpairs. apply (proj2 (Client_GetMap_val key db' Hf')).
    destruct (last_value_of_last_pair (string_pairs values) Hpairs)
      as (field & value & Hlast).
    intros Hempty.
    pose proof (Client_GetMap_field key db' field Hf') as Hlook.
    rewrite Hempty, lookup_empty, Hfields, Hlast in Hlook. done.
Qed.

Lemma HSet_then_HGetAll_witness :
  let db := (CmdableAdapter_HSet 1 "u"
               [any_string "name"; any_string "ann"; any_string "name"; any_string "bob"]
               empty_DB).2 in
  MapCmd_val (CmdableAdapter_HGetAll "u" db) !! "name" = Some "bob"
  ∧ MapCmd_err (CmdableAdapter_HGetAll "u" db) = None.
Proof.
  intros db.
  pose proof (HSet_then_HGetAll empty_DB 1 "u"
                [any_string "name"; any_string "ann"; any_string "name"; any_string "bob"]
                eq_refl ltac:(simpl; lia)) as [H1 H2].
  split; [exact (H1 "name")|]. apply H2. discriminate.
Defined.

(** ** The counter, twice *)

(** X12.  As the code has it: on a store that answers, an [IncrBy] that
    succeeded leaves a row whose expiry is the instant of its write, so
    that the next [IncrBy] of the key, at that instant or later, reads no
    live row and starts from 0 again: it returns its own [delta], whatever
    the first call returned. *)
Theorem IncrBy_starts_from_zero_again (db : DB) (key : string) (d1 d2 : Z)
    (now now' t t' : Time) :
  fault db = None → now' <= t →
  let first := CmdableAdapter_IncrBy now now' key d1 db in
  IntCmd_err first.1 = None →
  (CmdableAdapter_IncrBy t t' key d2 first.2).1 = mkIntCmd (wrap_int64 (0 + d2)) None.
Proof.
  intros Hf Ht first Hok.
  assert (Hfirst : ∃ value, first.2 = (Client_Set now' key value 0 db).2).
  { pose proof (CmdableAdapter_IncrBy_oceanbase db key d1 now now' Hf) as Hr.
    simpl in Hr. fold first in Hr.
    destruct (select_live_kv key now db) as [row|].
    - destruct (strconv.ParseInt _) as [current [e|]].
      + rewrite Hr in Hok. done.
      + rewrite Hr. by eexists.
    - rewrite Hr. by eexists. }
  destruct Hfirst as [value Hfirst].
  destruct (Client_Set_row now' key value 0 db Hf) as (_ & Hf' & row & Hrow & _ & Hexp).
  rewrite <- Hfirst in Hf', Hrow.
  pose proof (CmdableAdapter_IncrBy_oceanbase first.2 key d2 t t' Hf') as Hr.
  simpl in Hr.
  assert (Hdead : select_live_kv key t first.2 = None).
  { unfold select_live_kv. rewrite Hrow. rewrite decide_False by lia. done. }
  rewrite Hdead in Hr. by rewrite Hr.
Qed.

Lemma IncrBy_starts_from_zero_again_witness :
  (CmdableAdapter_Incr 2 2 "n" (CmdableAdapter_Incr 1 1 "n" empty_DB).2).1
  = mkIntCmd 1 None.
Proof.
  exact (IncrBy_starts_from_zero_again empty_DB "n" 1 1 1 1 2 2
           eq_refl ltac:(lia) eq_refl).
Defined.

(** ** [Set] then [Get], and what the result gives back *)



(** ** A store that does not answer *)

(** X14.  When every statement fails with the driver's message [msg]:
    [GetBytes], [GetString] and [GetMapField] report [ErrNotFound], as for
    a missing key, when [msg] is the text "record not found" or
    "gorm.ErrRecordNotFound", and the driver's error otherwise, while
    [GetMap] and [ScanMapStream] always report the driver's error; [Set],
    [SetNX], [Delete] and [Expire] report the driver's error with [false]
    or 0 for their result. *)
Theorem a_failing_store_is_reported (db : DB) (msg : string) :
  fault db = Some msg →
  let e := GormError (DriverError msg) in
  let missing :=
    if decide (msg = "record not found" ∨ msg = "gorm.ErrRecordNotFound")
    then ErrNotFound else e in
  (∀ now key, Client_GetBytes now key db = ([], Some missing)
              ∧ Client_GetString now key db = ("", Some missing))
  ∧ (∀ key field, Client_GetMapField key field db = ("", Some missing))
  ∧ (∀ key, Client_GetMap key db = (∅, Some e))
  ∧ (∀ key cursor match_ count,
       Client_ScanMapStream key cursor match_ count db = (([], 0), Some e))
  ∧ (∀ now key value ttl, (Client_Set now key value ttl db).1 = Some e)
  ∧ (∀ now key value ttl, (Client_SetNX now key value ttl db).1 = (false, Some e))
  ∧ (∀ key, (Client_Delete key db).1 = (0, Some e))
  ∧ (∀ now key ttl, (Client_Expire now key ttl db).1 = (false, Some e)).
Proof.
  intros Hf e missing. split_and!.
  - intros now key.
    assert (Hbytes : Client_GetBytes now key db = ([], Some missing))
      by (unfold Client_GetBytes, gorm.First; by rewrite Hf).
    split; [done|]. unfold Client_GetString. by rewrite Hbytes.
  - intros key field. unfold Client_GetMapField, gorm.First. by rewrite Hf.
  - intros key. unfold Client_GetMap, gorm.Find. by rewrite Hf.
  - intros key cursor match_ count. unfold Client_ScanMapStream, gorm.Find.
    by rewrite Hf.
  - intros now key value ttl. unfold Client_Set, gorm.Exec. by rewrite Hf.
  - intros now key value ttl. unfold Client_SetNX, gorm.Exec. by rewrite Hf.
  - intros key. unfold Client_Delete, gorm.Exec. by rewrite Hf.
  - intros now key ttl. unfold Client_Expire, gorm.Exec. by rewrite Hf.
Qed.

Lemma a_failing_store_is_reported_witness :
  let db := mkDB ∅ ∅ [] ∅ 1 (Some "record not found") false binary_LIKE in
  Client_GetString 1 "k" db = ("", Some ErrNotFound)
  ∧ Client_GetMap "k" db = (∅, Some (GormError (DriverError "record not found"))).
Proof.
  intros db.
  pose proof (a_failing_store_is_reported db "record not found" eq_refl)
    as (H1 & _ & H3 & _).
  exact (conj (proj2 (H1 1 "k")) (H3 "k")).
Defined.

(** ** Patterns *)

(** X15.  [convertRegexToSQL] keeps the length of the pattern, leaves no
    [*] in it, leaves a pattern without [*] as it is, and converting twice
    is converting once. *)
Theorem convertRegexToSQL_replaces_every_star (pattern : string) :
  String.length (convertRegexToSQL pattern) = String.length pattern
  ∧ ("*"%char ∉ list_ascii_of_string (convertRegexToSQL pattern))
  ∧ ("*"%char ∉ list_ascii_of_string pattern → convertRegexToSQL pattern = pattern)
  ∧ convertRegexToSQL (convertRegexToSQL pattern) = convertRegexToSQL pattern.
Proof.
  assert (Hfix : ∀ p, "*"%char ∉ list_ascii_of_string p → convertRegexToSQL p = p).
  { induction p as [|c p IH]; simpl; [done|]. intros Hnotin.
    apply not_elem_of_cons in Hnotin as [Hc Hp].
    rewrite decide_False by done. by rewrite IH. }
  assert (Hfree : ∀ p, "*"%char ∉ list_ascii_of_string (convertRegexToSQL p)).
  { induction p as [|c p IH]; simpl; [apply not_elem_of_nil|].
    apply not_elem_of_cons. split; [|done]. by case_decide. }
  split_and!.
  - induction pattern as [|c p IH]; simpl; [done|]. by rewrite IH.
  - apply Hfree.
  - apply Hfix.
  - apply Hfix, Hfree.
Qed.

(** * Further properties of publishing and subscribing *)

Section publish.
Implicit Types (db : DB) (s : subscription) (m msg : Message.t).

Lemma log_ok_empty_DB : log_ok empty_DB.
Proof. split_and!; [constructor|constructor|done]. Qed.

Lemma Client_Publish_healthy now channel message db :
  fault db = None →
  Client_Publish now channel message db
  = (None, with_messages db
             (cache_messages db
                ++ [Message.mk (next_message_id db) channel message now now])
             (next_message_id db + 1)).
Proof.
  intros Hf. unfold Client_Publish, gorm.Exec, insert_message. by rewrite Hf.
Qed.

Lemma log_ok_Publish now channel message db :
  log_ok db → log_ok (Client_Publish now channel message db).2.
Proof.
  intros Hlog. destruct (fault db) as [e|] eqn:Hf.
  { unfold Client_Publish, gorm.Exec. by rewrite Hf. }
  rewrite Client_Publish_healthy by done. simpl.
  destruct Hlog as (Hsorted & Hbelow & Hnext). split_and!; simpl.
  - apply StronglySorted_app_2; [|done|repeat constructor].
    intros m1 m2 Hm1 Hm2. apply list_elem_of_singleton in Hm2 as ->.
    rewrite Forall_forall in Hbelow. specialize (Hbelow m1 Hm1).
    unfold Message_lt. simpl. lia.
  - apply Forall_app. split.
    + eapply Forall_impl; [exact Hbelow|]. simpl. intros m Hm. lia.
    + repeat constructor; simpl; lia.
  - lia.
Qed.

(** X16.  On a store that answers, whose log is as [Publish] builds it
    (ids positive, ascending along the log, below the id the store assigns
    next), [Publish] returns no error and appends one message, of the
    channel and payload given, whose id is above the id of every message
    of the log; the log is again as [Publish] builds it. *)
Theorem Publish_appends_with_a_fresh_id db (now : Time) (channel message : string) :
  fault db = None → log_ok db →
  let r := Client_Publish now channel message db in
  let new := Message.mk (next_message_id db) channel message now now in
  r.1 = None
  ∧ cache_messages r.2 = (cache_messages db ++ [new])%list
  ∧ Forall (λ m, Message.ID m < Message.ID new) (cache_messages db)
  ∧ log_ok r.2.
Proof.
  intros Hf Hlog r new. subst r.
  split_and!; try (by rewrite Client_Publish_healthy by done).
  - destruct Hlog as (_ & Hbelow & _).
    eapply Forall_impl; [exact Hbelow|]. simpl. intros m Hm. lia.
  - by apply log_ok_Publish.
Qed.

Lemma Publish_appends_with_a_fresh_id_witness :
  Message.ID <$> cache_messages
    (Client_Publish 2 "news" "second" (Client_Publish 1 "news" "first" empty_DB).2).2
  = [1; 2].
Proof.
  pose proof (Publish_appends_with_a_fresh_id
                (Client_Publish 1 "news" "first" empty_DB).2 2 "news" "second"
                eq_refl (log_ok_Publish 1 "news" "first" empty_DB log_ok_empty_DB))
    as (_ & H & _).
  by rewrite H.
Defined.

#[local] Existing Instances Message_le_transitive Message_le_total.

Lemma StronglySorted_lt_le (l : list Message.t) :
  StronglySorted Message_lt l → StronglySorted Message_le l.
Proof.
  induction 1 as [|a l Hl IH Ha]; constructor; [done|].
  eapply Forall_impl; [exact Ha|]. unfold Message_lt, Message_le. intros m. lia.
Qed.

Lemma StronglySorted_lt_filter (P : Message.t → Prop) `{∀ m, Decision (P m)}
    (l : list Message.t) :
  StronglySorted Message_lt l → StronglySorted Message_lt (filter P l).
Proof.
  induction 1 as [|a l Hl IH Ha]; [constructor|].
  rewrite filter_cons. case_decide; [|done].
  constructor; [done|].
  apply Forall_forall. intros m Hm. apply list_elem_of_filter in Hm as [_ Hm].
  rewrite Forall_forall in Ha. by apply Ha.
Qed.

(** A list in strictly ascending order of id is the only such list with
    its elements. *)
Lemma StronglySorted_lt_unique (l1 l2 : list Message.t) :
  StronglySorted Message_lt l1 → StronglySorted Message_le l2 → l1 ≡ₚ l2 → l1 = l2.
Proof.
  intros Hl1 Hl2 Hperm.
  assert (Hlt : ∀ i j mi mj, (i < j)%nat → l1 !! i = Some mi → l1 !! j = Some mj →
                             Message.ID mi < Message.ID mj).
  { clear -Hl1. induction Hl1 as [|a l Hl IH Ha]; intros i j mi mj Hij Hi Hj; [done|].
    destruct i as [|i], j as [|j]; simpl in *; try lia.
    - simplify_eq. rewrite Forall_forall in Ha. apply (Ha mj).
      by eapply list_elem_of_lookup_2.
    - apply (IH i j); (done || lia). }
  apply (StronglySorted_unique_strong Message_le); try done.
  - intros m1 m2 Hm1 Hm2 H12 H21.
    rewrite <- Hperm in Hm2.
    apply list_elem_of_lookup in Hm1 as [i Hi].
    apply list_elem_of_lookup in Hm2 as [j Hj].
    unfold Message_le in *.
    destruct (Nat.lt_total i j) as [Hij|[->|Hji]].
    + specialize (Hlt i j m1 m2 Hij Hi Hj). lia.
    + congruence.
    + specialize (Hlt j i m2 m1 Hji Hj Hi). lia.
  - by apply StronglySorted_lt_le.
Qed.

Lemma select_messages_log channel (last : Z) db :
  log_ok db →
  select_messages channel last db = take 10 (pending_messages channel last db).
Proof.
  intros (Hsorted & _ & _). unfold select_messages, Limit, pending_messages. simpl.
  f_equal. symmetry. apply StronglySorted_lt_unique.
  - by apply StronglySorted_lt_filter.
  - apply StronglySorted_merge_sort; apply _.
  - symmetry. apply merge_sort_Permutation.
Qed.

(** X17.  On a log as [Publish] builds it, a poll returns the messages of
    the channel above the cursor in the order in which they were
    published, the first ten of them; and a message just published on the
    channel, on a store that answers, is the last of those above any
    cursor below its id. *)
Theorem poll_returns_in_publication_order db (channel : string) (last : Z) :
  log_ok db →
  select_messages channel last db = take 10 (pending_messages channel last db)
  ∧ (∀ now message,
       fault db = None → last < next_message_id db →
       pending_messages channel last (Client_Publish now channel message db).2
       = (pending_messages channel last db
            ++ [Message.mk (next_message_id db) channel message now now])%list)
  ∧ (∀ now other message,
       other ≠ channel →
       pending_messages channel last (Client_Publish now other message db).2
       = pending_messages channel last db).
Proof.
  intros Hlog. split_and!.
  - by apply select_messages_log.
  - intros now message Hf Hlast. rewrite Client_Publish_healthy by done.
    unfold pending_messages. simpl. rewrite filter_app. f_equal.
    rewrite filter_cons. simpl. by rewrite decide_True.
  - intros now other message Hother. destruct (fault db) as [e|] eqn:Hf.
    { unfold Client_Publish, gorm.Exec. by rewrite Hf. }
    rewrite Client_Publish_healthy by done.
    unfold pending_messages. simpl. rewrite filter_app.
    rewrite filter_cons. simpl. rewrite decide_False by tauto.
    by rewrite app_nil_r.
Qed.

Lemma poll_returns_in_publication_order_witness :
  payloads (select_messages "news" (-1) news_db) = ["first"; "second"].
Proof.
  rewrite (proj1 (poll_returns_in_publication_order news_db "news" (-1)
                    (log_ok_Publish 2 "news" "second" _
                       (log_ok_Publish 1 "news" "first" empty_DB log_ok_empty_DB)))).
  reflexivity.
Defined.
End publish.

Section subscribe_more.
Implicit Types (db : DB) (s : subscription) (m msg : Message.t).

Lemma channel_inv_attach now channel db :
  channel_inv channel (Client_Subscribe now channel db).1.
Proof.
  unfold Client_Subscribe. destruct (gorm.Exec _ db) as [result db'].
  split_and!; simpl; [done|constructor|constructor].
Qed.

Lemma channel_inv_step channel db s db' s' :
  step (db, s) (db', s') → channel_inv channel s → channel_inv channel s'.
Proof.
  intros Hstep (Hchan & Hhanded & Hbatch).
  pose proof (handed_off_step _ _ _ _ Hstep) as Hnew.
  assert (Hhanded' : Forall (λ m, Message.Channel m = channel) (handed_off s')).
  { destruct Hnew as [->|(msg & rest & Hpc & _ & _ & ->)]; [done|].
    apply Forall_app. split; [done|]. rewrite Hpc in Hbatch. simpl in Hbatch.
    apply Forall_cons in Hbatch as [Hmsg _]. by repeat constructor. }
  unfold channel_inv.
  inversion Hstep as
    [ db0 s0 Hwait | db0 s0 Hdel | db0 s0 msg rest Hdel Hroom
    | db0 s0 msg rest Hsent | now db0 s0 msg rest Hadv | db0 s0 Hstop
    | db0 s0 Hstop Hat | db0 s0 msg rest Hch | db0 db1 s0 Hrow ]; subst.
  - (* tick *)
    unfold gorm.Find in *. destruct (fault db') as [e|]; simpl in *.
    + by split_and!.
    + split_and!; simpl; try done.
      destruct (select_messages_batch (sub_channel s) (sub_LastMessageId s) db')
        as (Hall & _ & _).
      eapply Forall_impl; [exact Hall|]. simpl. tauto.
  - (* the batch is exhausted *)
    split_and!; simpl; (done || constructor).
  - (* send *)
    split_and!; simpl; try done. by rewrite Hdel in Hbatch.
  - (* the cursor in memory advances *)
    split_and!; simpl; try done. by rewrite Hsent in Hbatch.
  - (* the cursor is persisted *)
    split_and!; simpl; try done. rewrite Hadv in Hbatch. simpl in Hbatch.
    by apply Forall_cons in Hbatch as [_ Hrest].
  - (* detach *)
    by split_and!.
  - (* the goroutine returns *)
    split_and!; simpl; (done || constructor).
  - (* the consumer receives *)
    by split_and!.
  - (* another client writes *)
    by split_and!.
Qed.

Lemma channel_inv_reachable channel st st' :
  rtc step st st' → channel_inv channel st.2 → channel_inv channel st'.2.
Proof.
  induction 1 as [|[db s] [db' s'] st'' Hstep _ IH]; [done|].
  intros Hinv. apply IH. simpl in *. by eapply channel_inv_step.
Qed.

(** X18.  Whatever the steps taken since it attached, a subscription keeps
    its channel, every message its consumer has received or that waits in
    its channel buffer is a message of that channel, and the buffer never
    holds more than its capacity of 100. *)
Theorem Subscribe_delivers_its_channel_only (now : Time) (channel : string)
    (db0 db : DB) (s : subscription) :
  rtc step ((Client_Subscribe now channel db0).2, (Client_Subscribe now channel db0).1)
           (db, s) →
  sub_channel s = channel
  ∧ Forall (λ m, Message.Channel m = channel) (sub_received s)
  ∧ Forall (λ m, Message.Channel m = channel) (sub_ch s)
  ∧ (length (sub_ch s) <= 100)%nat.
Proof.
  intros Hrun.
  pose proof (channel_inv_reachable channel _ _ Hrun (channel_inv_attach now channel db0))
    as (Hchan & Hhanded & _).
  pose proof (order_inv_reachable _ _ Hrun (order_inv_attach now channel db0))
    as [_ _ Hcap].
  simpl in *. unfold handed_off in Hhanded. apply Forall_app in Hhanded as [Hr Hc].
  done.
Qed.

Lemma Subscribe_delivers_its_channel_only_witness :
  Forall (λ m, Message.Channel m = "news") (sub_received news_sub).
Proof.
  exact (proj1 (proj2 (Subscribe_delivers_its_channel_only 5 "news" news_db
                         news_db_after news_sub news_run))).
Defined.




Lemma log_ok_ext db db' :
  cache_messages db' = cache_messages db → next_message_id db' = next_message_id db →
  log_ok db → log_ok db'.
Proof. unfold log_ok. by intros -> ->. Qed.

Lemma log_ok_Subscribe now channel db :
  log_ok db → log_ok (Client_Subscribe now channel db).2.
Proof.
  apply log_ok_ext; unfold Client_Subscribe, gorm.Exec, first_or_create_subscribe;
    by destruct (fault db).
Qed.

Lemma StronglySorted_lt_snoc (l : list Message.t) (bound : Z) msg :
  StronglySorted Message_lt l →
  Forall (λ m, Message.ID m <= bound) l → bound < Message.ID msg →
  StronglySorted Message_lt (l ++ [msg]).
Proof.
  intros Hl Hbound Hmsg. apply StronglySorted_app_2; [|done|repeat constructor].
  intros x1 x2 Hx1 Hx2. apply list_elem_of_singleton in Hx2 as ->.
  rewrite Forall_forall in Hbound. specialize (Hbound x1 Hx1).
  unfold Message_lt. lia.
Qed.

Lemma select_messages_strict channel (last : Z) db :
  log_ok db →
  StronglySorted Message_lt (select_messages channel last db)
  ∧ Forall (λ m, last < Message.ID m) (select_messages channel last db).
Proof.
  intros Hlog. split.
  - rewrite select_messages_log by done.
    assert (Hpending : StronglySorted Message_lt (pending_messages channel last db))
      by (apply StronglySorted_lt_filter; apply Hlog).
    rewrite <- (take_drop 10 (pending_messages channel last db)) in Hpending.
    by apply StronglySorted_app_1_l in Hpending.
  - destruct (select_messages_batch channel last db) as (Hall & _ & _).
    eapply Forall_impl; [exact Hall|]. simpl. tauto.
Qed.

Lemma strict_inv_step st st' :
  step_on_log st st' → strict_inv st → strict_inv st'.
Proof.
  destruct st as [db s], st' as [db' s'].
  intros [Hstep Hlog'] (Hlog & Hsorted & Hpc). simpl in *.
  pose proof (handed_off_step _ _ _ _ Hstep) as Hhanded.
  unfold strict_inv, pc_strict in *. simpl.
  inversion Hstep as
    [ db0 s0 Hwait | db0 s0 Hdel | db0 s0 msg rest Hdel Hroom
    | db0 s0 msg rest Hsent | now db0 s0 msg rest Hadv | db0 s0 Hstop
    | db0 s0 Hstop Hat | db0 s0 msg rest Hch | db0 db1 s0 Hrow ]; subst.
  - (* tick *)
    rewrite Hwait in Hpc. unfold gorm.Find.
    destruct (fault db') as [e|]; simpl.
    + rewrite Hwait. done.
    + destruct (select_messages_strict (sub_channel s) (sub_LastMessageId s) db' Hlog)
        as [Hbatch Habove].
      done.
  - (* the batch is exhausted *)
    rewrite Hdel in Hpc. simpl. tauto.
  - (* send *)
    rewrite Hdel in Hpc. destruct Hpc as (Hle & Hbatch & Hge).
    apply Forall_cons in Hge as [Hmsg Hge].
    destruct Hhanded as [Hsame|(msg' & rest' & Hpc' & _ & _ & Hnew)].
    { exfalso. apply (f_equal length) in Hsame. unfold handed_off in Hsame.
      simpl in Hsame. rewrite !length_app in Hsame. simpl in Hsame. lia. }
    rewrite Hdel in Hpc'. simplify_eq. rewrite Hnew. simpl.
    split_and!; try done.
    + by eapply StronglySorted_lt_snoc.
    + apply Forall_app. split.
      * eapply Forall_impl; [exact Hle|]. simpl. intros m Hm. lia.
      * repeat constructor. lia.
  - (* the cursor in memory advances *)
    rewrite Hsent in Hpc. simpl. tauto.
  - (* the cursor is persisted *)
    rewrite Hadv in Hpc. destruct Hpc as (Heq & Hle & Hbatch).
    apply StronglySorted_inv in Hbatch as [Hrest Hhead]. simpl.
    split_and!; try done.
    eapply Forall_impl; [exact Hhead|]. unfold Message_lt. simpl. intros m Hm. lia.
  - (* detach *)
    simpl. done.
  - (* the goroutine returns *)
    simpl. split_and!; try done. destruct Hat as [Hw|(msg & rest & Hd)].
    + by rewrite Hw in Hpc.
    + rewrite Hd in Hpc. tauto.
  - (* the consumer receives *)
    destruct Hhanded as [Hsame|(msg' & rest' & Hd & Hpc' & _)];
      [|simpl in Hpc'; congruence].
    simpl. rewrite Hsame. done.
  - (* another client writes *)
    done.
Qed.

Lemma strict_inv_reachable st st' :
  rtc step_on_log st st' → strict_inv st → strict_inv st'.
Proof.
  induction 1 as [|st st1 st2 Hstep _ IH]; [done|].
  intros Hinv. apply IH. by eapply strict_inv_step.
Qed.

Lemma StronglySorted_lt_NoDup (l : list Message.t) :
  StronglySorted Message_lt l → NoDup (Message.ID <$> l).
Proof.
  induction 1 as [|a l Hl IH Ha]; simpl; constructor; [|done].
  intros Hin. apply list_elem_of_fmap in Hin as (m & Hid & Hm).
  rewrite Forall_forall in Ha. specialize (Ha m Hm). unfold Message_lt in Ha. lia.
Qed.

(** X20.  When the log is, at the attach and after every step, as
    [Publish] builds it (the other clients append to the log and do not
    rewrite it), the messages handed to the channel are in strictly
    ascending order of id: no message is handed off twice, and the
    consumer receives no id twice. *)
Theorem Subscribe_hands_off_each_message_once (now : Time) (channel : string)
    (db0 db : DB) (s : subscription) :
  log_ok db0 →
  rtc step_on_log
      ((Client_Subscribe now channel db0).2, (Client_Subscribe now channel db0).1)
      (db, s) →
  StronglySorted Message_lt (handed_off s)
  ∧ NoDup (Message.ID <$> handed_off s)
  ∧ NoDup (Message.ID <$> sub_received s).
Proof.
  intros Hlog Hrun.
  assert (Hinit : strict_inv ((Client_Subscribe now channel db0).2,
                              (Client_Subscribe now channel db0).1)).
  { split_and!; simpl.
    - by apply log_ok_Subscribe.
    - unfold Client_Subscribe. destruct (gorm.Exec _ db0). simpl. constructor.
    - unfold Client_Subscribe, pc_strict. destruct (gorm.Exec _ db0). simpl.
      constructor. }
  destruct (strict_inv_reachable _ _ Hrun Hinit) as (_ & Hsorted & _).
  simpl in Hsorted. split_and!; [done|by apply StronglySorted_lt_NoDup|].
  apply StronglySorted_lt_NoDup. unfold handed_off in Hsorted.
  by apply StronglySorted_app_1_l in Hsorted.
Qed.

Lemma news_db_log_ok : log_ok news_db.
Proof.
  apply log_ok_Publish, log_ok_Publish, log_ok_empty_DB.
Qed.

Lemma news_run_on_log :
  rtc step_on_log
      ((Client_Subscribe 5 "news" news_db).2, (Client_Subscribe 5 "news" news_db).1)
      (news_db_after, news_sub).
Proof.
  assert (Hlog : ∀ db, cache_messages db = cache_messages news_db →
                       next_message_id db = next_message_id news_db → log_ok db)
    by (intros db H1 H2; by apply (log_ok_ext news_db db H1 H2), news_db_log_ok).
  eapply rtc_l; [split; [by apply step_tick|by apply Hlog]|].
  eapply rtc_l; [split; [eapply step_send; [reflexivity|vm_compute; lia]
                        |by apply Hlog]|].
  eapply rtc_l; [split; [eapply step_advance; reflexivity|by apply Hlog]|].
  eapply rtc_l; [split; [eapply (step_persist 6); reflexivity|by apply Hlog]|].
  eapply rtc_l; [split; [eapply step_send; [reflexivity|vm_compute; lia]
                        |by apply Hlog]|].
  eapply rtc_l; [split; [eapply step_advance; reflexivity|by apply Hlog]|].
  eapply rtc_l; [split; [eapply (step_persist 7); reflexivity|by apply Hlog]|].
  eapply rtc_l; [split; [eapply step_receive; reflexivity|by apply Hlog]|].
  apply rtc_refl.
Defined.

Lemma Subscribe_hands_off_each_message_once_witness :
  NoDup (Message.ID <$> handed_off news_sub).
Proof.
  exact (proj1 (proj2 (Subscribe_hands_off_each_message_once 5 "news" news_db
                         news_db_after news_sub news_db_log_ok news_run_on_log))).
Defined.
End subscribe_more.

(** * Keys apart, and the bounds of a page *)

Lemma Client_GetString_same_row t k db db' :
  cache_kvs db' !! k = cache_kvs db !! k → fault db' = fault db →
  Client_GetString t k db' = Client_GetString t k db.
Proof.
  intros Hrow Hf. unfold Client_GetString, Client_GetBytes, gorm.First, select_live_kv.
  by rewrite Hf, Hrow.
Qed.

Lemma Exec_fault (stmt : DB → Z * DB) db :
  (∀ db0, fault (stmt db0).2 = fault db0) → fault (gorm.Exec stmt db).2 = fault db.
Proof.
  intros Hstmt. unfold gorm.Exec. destruct (fault db) eqn:Hf; simpl; [done|].
  specialize (Hstmt db). destruct (stmt db) as [n db']. simpl in *. congruence.
Qed.

Lemma Client_Set_fault now key value expire db :
  fault (Client_Set now key value expire db).2 = fault db.
Proof.
  unfold Client_Set.
  pose proof (Exec_fault (upsert_kv key (toBytes value) (Time_Add now expire) now) db) as H.
  destruct (gorm.Exec _ db) as [result db']. simpl in *. apply H.
  intros db0. unfold upsert_kv. by destruct (cache_kvs db0 !! key).
Qed.

Lemma Client_SetNX_other now key value expire db k :
  key ≠ k →
  cache_kvs (Client_SetNX now key value expire db).2 !! k = cache_kvs db !! k
  ∧ fault (Client_SetNX now key value expire db).2 = fault db.
Proof.
  intros Hne. unfold Client_SetNX, gorm.Exec, insert_ignore_kv.
  destruct (fault db) eqn:Hf; simpl; [by rewrite Hf|].
  destruct (cache_kvs db !! key); simpl; rewrite ?Hf; [done|].
  by rewrite lookup_insert_ne.
Qed.

Lemma Client_Delete_fault key db : fault (Client_Delete key db).2 = fault db.
Proof. apply Client_Delete_maps. Qed.

Lemma Client_Expire_fault now key (expire : Duration) db :
  fault (Client_Expire now key expire db).2 = fault db.
Proof. apply Client_Expire_maps. Qed.

Lemma CmdableAdapter_IncrBy_state now now' key (delta : Z) (db : DB) :
  (CmdableAdapter_IncrBy now now' key delta db).2 = db
  ∨ ∃ value, (CmdableAdapter_IncrBy now now' key delta db).2
             = (Client_Set now' key value 0 db).2.
Proof.
  unfold CmdableAdapter_IncrBy, IncrBy_fn. simpl. unfold Client_Transaction.
  destruct (fault db); [by left|].
  destruct (Client_GetString now key db) as [currentVal [e|]].
  - destruct e; try (by left).
    destruct (Client_Set now' key _ 0 db) as [[e|] tx] eqn:Hset; simpl; [by left|].
    right. eexists. by rewrite Hset.
  - destruct (strconv.ParseInt currentVal) as [current [e|]]; [by left|].
    destruct (Client_Set now' key _ 0 db) as [[e|] tx] eqn:Hset; simpl; [by left|].
    right. eexists. by rewrite Hset.
Qed.

(** X21.  A call on one key does not change what [GetString] returns for
    another key, at any instant and whatever the state of the store: this
    holds of [Set], [SetNX], [Delete], [Expire] and [IncrBy]. *)
Theorem other_keys_read_the_same (db : DB) (key k : string) (t : Time) :
  key ≠ k →
  (∀ now value ttl,
     Client_GetString t k (Client_Set now key value ttl db).2 = Client_GetString t k db)
  ∧ (∀ now value ttl,
       Client_GetString t k (Client_SetNX now key value ttl db).2
       = Client_GetString t k db)
  ∧ Client_GetString t k (Client_Delete key db).2 = Client_GetString t k db
  ∧ (∀ now ttl,
       Client_GetString t k (Client_Expire now key ttl db).2 = Client_GetString t k db)
  ∧ (∀ now now' delta,
       Client_GetString t k (CmdableAdapter_IncrBy now now' key delta db).2
       = Client_GetString t k db).
Proof.
  intros Hne. split_and!.
  - intros now value ttl. apply Client_GetString_same_row.
    + by apply Client_Set_other.
    + apply Client_Set_fault.
  - intros now value ttl.
    destruct (Client_SetNX_other now key value ttl db k Hne) as [Hrow Hf].
    by apply Client_GetString_same_row.
  - apply Client_GetString_same_row.
    + by apply Client_Delete_other.
    + apply Client_Delete_fault.
  - intros now ttl. apply Client_GetString_same_row.
    + by apply Client_Expire_other.
    + apply Client_Expire_fault.
  - intros now now' delta.
    destruct (CmdableAdapter_IncrBy_state now now' key delta db) as [->|[value ->]];
      [done|].
    apply Client_GetString_same_row.
    + by apply Client_Set_other.
    + apply Client_Set_fault.
Qed.

Lemma other_keys_read_the_same_witness :
  let db := (Client_Set 1 "a" (any_string "x") 100 empty_DB).2 in
  Client_GetString 5 "a" (CmdableAdapter_IncrBy 2 2 "b" 1 db).2 = ("x", None).
Proof.
  intros db.
  rewrite (proj2 (proj2 (proj2 (proj2
             (other_keys_read_the_same db "b" "a" 5 ltac:(discriminate))))) 2 2 1).
  reflexivity.
Defined.

Lemma flatten_fields_length (rows : list (string * CacheMap.t)) :
  length (flatten_fields rows) = (2 * length rows)%nat.
Proof.
  unfold flatten_fields. induction rows as [|r rows IH]; simpl; [done|].
  rewrite IH. lia.
Qed.

Lemma flatten_fields_pair (rows : list (string * CacheMap.t)) (i : nat)
    (field value : string) :
  flatten_fields rows !! (2 * i)%nat = Some field →
  flatten_fields rows !! (2 * i + 1)%nat = Some value →
  ∃ row, (field, row) ∈ rows ∧ CacheMap.CacheValue row = value.
Proof.
  revert i. induction rows as [|[f0 r0] rows IH]; intros i Hfield Hvalue; [done|].
  change (flatten_fields ((f0, r0) :: rows))
    with (f0 :: CacheMap.CacheValue r0 :: flatten_fields rows) in *.
  destruct i as [|i].
  - change (Some f0 = Some field) in Hfield.
    change (Some (CacheMap.CacheValue r0) = Some value) in Hvalue.
    simplify_eq. exists r0. split; [apply list_elem_of_here|done].
  - replace (2 * S i)%nat with (S (S (2 * i))) in Hfield by lia.
    replace (2 * S i + 1)%nat with (S (S (2 * i + 1))) in Hvalue by lia.
    change (flatten_fields rows !! (2 * i)%nat = Some field) in Hfield.
    change (flatten_fields rows !! (2 * i + 1)%nat = Some value) in Hvalue.
    destruct (IH i Hfield Hvalue) as (row & Hin & Hval).
    exists row. split; [by apply list_elem_of_further|done].
Qed.

(** X22.  On a store that answers, with [count >= 1] and a cursor that is
    not negative as an [int], a call of [ScanMapStream] returns two
    strings for each row of the page, and the page is the [count] rows
    from the cursor on, or as many as are left: a cursor at or past the
    end returns nothing and cursor 0, and a full page returns the cursor
    advanced by [count].  Without a pattern the strings returned pair each
    field with the value [GetMapField] returns for it. *)
Theorem ScanMapStream_page_bounds (db : DB) (key match_ : string) (cursor count : Z) :
  fault db = None → 1 <= count → 0 <= cursor < 2 ^ 63 →
  let pattern :=
    if decide (match_ = "") then None else Some (convertRegexToSQL match_) in
  let rows := select_maps key pattern db in
  Z.of_nat (length rows) < 2 ^ 63 →
  let r := Client_ScanMapStream key cursor match_ count db in
  r.2 = None
  ∧ Z.of_nat (length r.1.1)
    = 2 * Z.min count (Z.max 0 (Z.of_nat (length rows) - cursor))
  ∧ (Z.of_nat (length rows) <= cursor → r.1 = ([], 0))
  ∧ (cursor + count <= Z.of_nat (length rows) → r.1.2 = cursor + count)
  ∧ (match_ = "" →
     ∀ i field value,
       r.1.1 !! (2 * i)%nat = Some field → r.1.1 !! (2 * i + 1)%nat = Some value →
       Client_GetMapField key field db = (value, None)).
Proof.
  intros Hf Hcount Hcur pattern rows Hlen r.
  pose proof (Client_ScanMapStream_page key cursor match_ count db Hf Hcount Hcur Hlen)
    as Hr.
  fold pattern in Hr. fold rows in Hr. fold r in Hr.
  set (page := take (Z.to_nat count) (drop (Z.to_nat cursor) rows)) in *.
  assert (Hpage : Z.of_nat (length page)
                  = Z.min count (Z.max 0 (Z.of_nat (length rows) - cursor)))
    by (subst page; rewrite length_take, length_drop; lia).
  rewrite Hr. simpl. split_and!.
  - done.
  - rewrite flatten_fields_length. lia.
  - intros Hpast. assert (page = []) as -> by (apply nil_length_inv; lia).
    simpl. by rewrite decide_True by lia.
  - intros Hfull. rewrite decide_False by lia. lia.
  - intros Hmatch i field value Hfield Hvalue.
    assert (Hin : ∃ row, (field, row) ∈ page ∧ CacheMap.CacheValue row = value)
      by exact (flatten_fields_pair page i field value Hfield Hvalue).
    destruct Hin as (row & Hin & Hval).
    assert (Hrows : (field, row) ∈ rows).
    { subst page. apply elem_of_take in Hin as (j & Hj & _).
      apply (subseteq_drop (Z.to_nat cursor) rows).
      by eapply list_elem_of_lookup_2. }
    subst rows pattern. rewrite decide_True in Hrows by done.
    apply elem_of_select_maps in Hrows as [Hrow _].
    rewrite Client_GetMapField_lookup by done. by rewrite Hrow, Hval.
Qed.

Lemma ScanMapStream_page_bounds_witness :
  let db := (CmdableAdapter_HSet 1 "u"
               [any_string "a"; any_string "1"; any_string "b"; any_string "2";
                any_string "c"; any_string "3"] empty_DB).2 in
  (Client_ScanMapStream "u" 3 "" 2 db).1 = ([], 0).
Proof.
  intros db.
  refine (proj1 (proj2 (proj2 (ScanMapStream_page_bounds db "u" "" 3 2 _ _ _ _))) _).
  - reflexivity.
  - lia.
  - lia.
  - vm_compute. reflexivity.
  - vm_compute. discriminate.
Defined.
